(** * grpcutil: bounded-size proto decoding and encoding

    A shallow embedding of
    [vendor/github.com/grafana/dskit/grpcutil/proto.go] and of the parts of
    the Go standard library it drives ([io.LimitReader], [bytes.Buffer],
    [fmt.Errorf]), followed by the properties of [ParseProtoReader] and
    [SerializeProtoResponse].

    Conventions.
    - Go's [int] is taken to be 64 bits wide, like [int64]: sizes are values
      of [Z], and the two additions [proto.go] performs on them,
      [expectedSize + bytes.MinRead] and [int64(maxSize)+1], are wrapped
      with [wrap64].
    - The underlying [io.Reader] plays a finite script of chunks and
      reports [io.EOF] once the script is over, so a read loop over it
      ends; how the chunks are cut into [Read] results depends on the room
      the caller offers, the bytes and the final error do not.
    - A [[]byte] is a [list byte]; the nil slice and the empty slice are both
      [[]] (the code only looks at [len] and at the contents).
    - A Go [(value, error)] result is a pair whose second component is an
      [option error]; [None] is the nil error.
    - Calls that touch the outside world (reads on the source, span logging,
      calls into snappy) run in the monad [M], which threads a [World] and
      can panic.
    - Memory is unbounded: an allocation never fails, so [bytes.Buffer]
      panics on a negative count only and never with [ErrTooLarge].
    - A reader that offers [BytesBuffer()] returns a buffer that is not nil.
    - A [ResponseWriter] either accepts every [Write] or fails every
      [Write] with the same error. *)

From Stdlib Require Import ZArith List String Ascii Lia Bool.
From Stdlib Require Import DecimalString.
Import ListNotations.

Local Open Scope string_scope.
Local Open Scope list_scope.
Local Open Scope Z_scope.

(** ** Machine integers *)

Definition max_int : Z := 2 ^ 63 - 1.
Definition min_int : Z := - 2 ^ 63.

(** Two's-complement wrap-around of a 64-bit signed result. *)
Definition wrap64 (z : Z) : Z := (z + 2 ^ 63) mod 2 ^ 64 - 2 ^ 63.

Definition is_int (z : Z) : Prop := min_int <= z <= max_int.

(** ** Bytes and errors *)

Definition byte := Byte.byte.
Definition bytes := list byte.

(** [len(b)] as a Go [int]. *)
Definition len {A : Type} (l : list A) : Z := Z.of_nat (List.length l).

(** Go [error] values: the sentinel [io.EOF], compared by identity in
    [bytes.Buffer.ReadFrom], and errors carrying a message. *)
Inductive error : Type :=
| io_EOF
| errorString (s : string).

Definition error_Error (e : error) : string :=
  match e with
  | io_EOF => "EOF"
  | errorString s => s
  end.

Definition error_eqb (a b : error) : bool :=
  match a, b with
  | io_EOF, io_EOF => true
  | errorString s, errorString t => String.eqb s t
  | _, _ => false
  end.

(** ** fmt.Errorf *)

Inductive fmt_arg : Type :=
| ArgInt (z : Z)
| ArgError (e : error).

(** [strconv.Itoa]: decimal digits with a leading [-] for negatives. *)
Definition itoa (z : Z) : string := NilZero.string_of_int (Z.to_int z).

Definition format_arg (a : fmt_arg) : string :=
  match a with
  | ArgInt z => itoa z
  | ArgError e => error_Error e
  end.

(** [fmt.Sprintf] for the two verbs the package uses, [%d] and [%v]. *)
Fixpoint Sprintf (format : string) (args : list fmt_arg) : string :=
  match format with
  | EmptyString => EmptyString
  | String c rest =>
      match c, rest with
      | "%"%char, String v rest' =>
          if (Ascii.eqb v "d" || Ascii.eqb v "v")%bool then
            match args with
            | a :: args' => String.append (format_arg a) (Sprintf rest' args')
            | [] => String.append "%!" (String v (String.append "(MISSING)" (Sprintf rest' [])))
            end
          else String c (Sprintf rest args)
      | _, _ => String c (Sprintf rest args)
      end
  end.

Definition fmt_Errorf (format : string) (args : list fmt_arg) : error :=
  errorString (Sprintf format args).

(** ** The outside world *)

(** A field of a span log record ([otlog.String], [otlog.Int]). *)
Inductive Field : Type :=
| otlog_String (key val : string)
| otlog_Int (key : string) (val : Z).

(** What the package does to its collaborators, apart from reading the
    source. *)
Inductive Event : Type :=
| EvLogFields (fields : list Field)
| EvBytesBuffer
| EvDecodedLen (src : bytes)
| EvDecode (src : bytes)
| EvEncode (src : bytes).

(** One pending result of the underlying [io.Reader]: the bytes it has ready
    and the error it reports together with the last of them. *)
Definition chunk : Type := (bytes * option error)%type.

(** The script the underlying reader will play; once it is exhausted every
    [Read] returns [(0, io.EOF)]. *)
Definition stream : Type := list chunk.

Record World : Type := mkWorld {
  source : stream;      (* what the io.Reader will still deliver *)
  reads  : nat;         (* number of Read calls made on it so far *)
  log    : list Event   (* events, oldest first *)
}.

(** ** The effect monad *)

Inductive Res (A : Type) : Type :=
| Val (a : A) (w : World)
| Panic (msg : string) (w : World)
| Diverged.

Arguments Val {A} a w.
Arguments Panic {A} msg w.
Arguments Diverged {A}.

Definition M (A : Type) : Type := World -> Res A.

Definition ret {A : Type} (a : A) : M A := fun w => Val a w.

Definition bind {A B : Type} (m : M A) (k : A -> M B) : M B :=
  fun w =>
    match m w with
    | Val a w' => k a w'
    | Panic msg w' => Panic msg w'
    | Diverged => Diverged
    end.

Definition panic {A : Type} (msg : string) : M A := fun w => Panic msg w.

Definition emit (e : Event) : M unit :=
  fun w => Val tt (mkWorld (source w) (reads w) (log w ++ [e])).

Declare Scope go_scope.
Delimit Scope go_scope with go.
Notation "x <- c1 ;; c2" := (bind c1 (fun x => c2))
  (at level 100, c1 at next level, right associativity) : go_scope.
Notation "' pat <- c1 ;; c2" := (bind c1 (fun x => match x with pat => c2 end))
  (at level 100, pat pattern, c1 at next level, right associativity) : go_scope.
Notation "c1 ;; c2" := (bind c1 (fun _ => c2))
  (at level 100, right associativity) : go_scope.
Local Open Scope go_scope.

(** ** io.Reader, io.LimitReader *)

(** [Read(p)] on the underlying reader with [len(p) = p]: the head chunk is
    delivered whole when it fits, otherwise its first [p] bytes with a nil
    error. *)
Definition source_Read (p : Z) : M (bytes * option error) :=
  fun w =>
    match source w with
    | [] => Val ([], Some io_EOF) (mkWorld [] (S (reads w)) (log w))
    | (d, e) :: rest =>
        if len d <=? p then
          Val (d, e) (mkWorld rest (S (reads w)) (log w))
        else
          Val (firstn (Z.to_nat p) d, None)
              (mkWorld ((skipn (Z.to_nat p) d, e) :: rest) (S (reads w)) (log w))
    end.

(** [io.LimitedReader] over the underlying reader; [N] is an [int64]. *)
Record LimitedReader : Type := mkLimitedReader { N : Z }.

Definition io_LimitReader (n : Z) : LimitedReader := mkLimitedReader n.

Definition LimitedReader_Read (l : LimitedReader) (p : Z)
  : M (bytes * option error * LimitedReader) :=
  if N l <=? 0 then ret ([], Some io_EOF, l)
  else
    let p := if p >? N l then N l else p in
    '(d, e) <- source_Read p ;;
    ret (d, e, mkLimitedReader (N l - len d)).

(** ** bytes.Buffer *)

Definition MinRead : Z := 512.
Definition smallBufferSize : Z := 64.

(** The unread contents and the capacity of the backing array. *)
Record Buffer : Type := mkBuffer { Bytes : bytes; cap : Z }.

Definition Buffer_zero : Buffer := mkBuffer [] 0.

(** [grow(n)]: make room for [n] more bytes, by reslicing when there is
    room, else by allocating. The read offset of the buffers met here is
    zero, so sliding the contents down never applies; the new capacity is
    the one [growSlice] asks for, without the allocator's rounding; the
    guard against a capacity beyond [max_int] needs a buffer of more than
    [2^62] bytes and is left out. *)
Definition Buffer_grow (b : Buffer) (n : Z) : Buffer :=
  if n <=? cap b - len (Bytes b) then b
  else if ((cap b =? 0) && (n <=? smallBufferSize))%bool then
    mkBuffer (Bytes b) smallBufferSize
  else mkBuffer (Bytes b) (Z.max (len (Bytes b) + n) (2 * cap b)).

Definition Buffer_Grow (b : Buffer) (n : Z) : M Buffer :=
  if n <? 0 then panic "bytes.Buffer.Grow: negative count"
  else ret (Buffer_grow b n).

(** The loop of [ReadFrom]: grow by [MinRead], read into the free space,
    stop at [io.EOF] (reported as nil) or at any other error. *)
Fixpoint ReadFrom_loop (fuel : nat) (b : Buffer) (l : LimitedReader)
  : M (Buffer * option error) :=
  match fuel with
  | O => fun _ => Diverged
  | S fuel' =>
      let b1 := Buffer_grow b MinRead in
      '(d, e, l') <- LimitedReader_Read l (cap b1 - len (Bytes b1)) ;;
      let b2 := mkBuffer (Bytes b1 ++ d) (cap b1) in
      match e with
      | Some io_EOF => ret (b2, None)
      | Some e' => ret (b2, Some e')
      | None => ReadFrom_loop fuel' b2 l'
      end
  end.

(** Every pass of the loop either removes a chunk of the script or at least
    one byte of its head chunk, so this many passes are enough. *)
Fixpoint stream_fuel (s : stream) : nat :=
  match s with
  | [] => 1
  | (d, _) :: rest => S (List.length d + stream_fuel rest)
  end.

Definition Buffer_ReadFrom (b : Buffer) (l : LimitedReader)
  : M (Buffer * option error) :=
  fun w => ReadFrom_loop (stream_fuel (source w)) b l w.

(** ** Collaborators outside the package *)

(** [github.com/golang/snappy]: the block format's three entry points. *)
Class Snappy : Type := {
  snappy_DecodedLen : bytes -> Z * option error;
  snappy_Decode : bytes -> bytes * option error;
  snappy_Encode : bytes -> bytes
}.

(** A [proto.Message]. [Unmarshaler] is the message's own [Unmarshal] method
    when it implements [proto.Unmarshaler]; [Buffer_Unmarshal] is
    [proto.NewBuffer(body).Unmarshal(req)]. *)
Class Message (T : Type) : Type := {
  Reset : T -> T;
  Unmarshaler : option (T -> bytes -> T * option error);
  Buffer_Unmarshal : bytes -> T -> T * option error;
  proto_Marshal : T -> bytes * option error
}.

(** An [opentracing.Span]; a context carries at most one. *)
Record Span : Type := mkSpan { operationName : string }.
Record Context : Type := mkContext { activeSpan : option Span }.

Definition opentracing_SpanFromContext (ctx : Context) : option Span :=
  activeSpan ctx.

Definition Span_LogFields (sp : Span) (fields : list Field) : M unit :=
  emit (EvLogFields fields).

(** The [io.Reader] handed to the package: either a plain reader, whose
    script is the world's [source], or one that also has a
    [BytesBuffer() *bytes.Buffer] method. *)
Inductive Reader : Type :=
| PlainReader
| BufferReader (b : Buffer).

(** A [http.ResponseWriter]: the error its [Write] returns, the status code
    once it is set, the body written so far. *)
Record ResponseWriter : Type := mkResponseWriter {
  writeErr : option error;
  status   : option Z;
  written  : bytes
}.

Definition StatusOK : Z := 200.
Definition StatusInternalServerError : Z := 500.

Definition setStatus (w : ResponseWriter) (code : Z) : ResponseWriter :=
  match status w with
  | Some _ => w
  | None => mkResponseWriter (writeErr w) (Some code) (written w)
  end.

Definition ResponseWriter_Write (w : ResponseWriter) (data : bytes)
  : ResponseWriter * option error :=
  match writeErr w with
  | Some e => (w, Some e)
  | None =>
      let w := setStatus w StatusOK in
      (mkResponseWriter (writeErr w) (status w) (written w ++ data), None)
  end.

Definition http_Error (w : ResponseWriter) (msg : string) (code : Z)
  : ResponseWriter :=
  let w := setStatus w code in
  fst (ResponseWriter_Write w (list_byte_of_string msg ++ [Byte.x0a])).

(** ** The package *)

Definition messageSizeLargerErrFmt : string :=
  "received message larger than max (%d vs %d)".

(** [CompressionType] is an [int]; the two declared values come from [iota]. *)
Definition CompressionType : Type := Z.
Definition NoCompression : CompressionType := 0.
Definition RawSnappy : CompressionType := 1.

Section Package.

Context {snappy : Snappy} {T : Type} {message : Message T}.

Definition snappy_DecodedLen_call (src : bytes) : M (Z * option error) :=
  emit (EvDecodedLen src) ;; ret (snappy_DecodedLen src).

Definition snappy_Decode_call (src : bytes) : M (bytes * option error) :=
  emit (EvDecode src) ;; ret (snappy_Decode src).

Definition snappy_Encode_call (src : bytes) : M bytes :=
  emit (EvEncode src) ;; ret (snappy_Encode src).

Definition logFields (sp : option Span) (fields : list Field) : M unit :=
  match sp with
  | Some s => Span_LogFields s fields
  | None => ret tt
  end.

Definition tryBufferFromReader (reader : Reader) : M (option Buffer) :=
  match reader with
  | BufferReader b => emit EvBytesBuffer ;; ret (Some b)
  | PlainReader => ret None
  end.

Definition decompressFromBuffer (buffer : Buffer) (maxSize : Z)
    (compression : CompressionType) (sp : option Span)
  : M (bytes * option error) :=
  if len (Bytes buffer) >? maxSize then
    ret ([], Some (fmt_Errorf messageSizeLargerErrFmt
                     [ArgInt (len (Bytes buffer)); ArgInt maxSize]))
  else if compression =? NoCompression then
    ret (Bytes buffer, None)
  else if compression =? RawSnappy then
    logFields sp [otlog_String "event" "util.ParseProtoRequest[decompress]";
                  otlog_Int "size" (len (Bytes buffer))] ;;
    '(size, err) <- snappy_DecodedLen_call (Bytes buffer) ;;
    match err with
    | Some e => ret ([], Some e)
    | None =>
        if size >? maxSize then
          ret ([], Some (fmt_Errorf messageSizeLargerErrFmt
                           [ArgInt size; ArgInt maxSize]))
        else
          '(body, err) <- snappy_Decode_call (Bytes buffer) ;;
          match err with
          | Some e => ret ([], Some e)
          | None => ret (body, None)
          end
    end
  else ret ([], None).

Definition decompressFromReader (expectedSize maxSize : Z)
    (compression : CompressionType) (sp : option Span)
  : M (bytes * option error) :=
  buf <- (if expectedSize >? 0
          then Buffer_Grow Buffer_zero (wrap64 (expectedSize + MinRead))
          else ret Buffer_zero) ;;
  let reader := io_LimitReader (wrap64 (maxSize + 1)) in
  if compression =? NoCompression then
    '(buf, err) <- Buffer_ReadFrom buf reader ;;
    ret (Bytes buf, err)
  else if compression =? RawSnappy then
    '(buf, err) <- Buffer_ReadFrom buf reader ;;
    match err with
    | Some e => ret ([], Some e)
    | None => decompressFromBuffer buf maxSize RawSnappy sp
    end
  else ret ([], None).

(** The statements of [decompressRequest], without its deferred closure. *)
Definition decompressRequest_body (reader : Reader) (expectedSize maxSize : Z)
    (compression : CompressionType) (sp : option Span)
  : M (bytes * option error) :=
  if expectedSize >? maxSize then
    ret ([], Some (fmt_Errorf messageSizeLargerErrFmt
                     [ArgInt expectedSize; ArgInt maxSize]))
  else
    buffer <- tryBufferFromReader reader ;;
    match buffer with
    | Some buffer => decompressFromBuffer buffer maxSize compression sp
    | None => decompressFromReader expectedSize maxSize compression sp
    end.

(** The closure [decompressRequest] defers: it sees the named results
    [body] and [err] and may replace [err]. *)
Definition decompressRequest_deferred (maxSize : Z)
    (r : bytes * option error) : bytes * option error :=
  let '(body, err) := r in
  match err with
  | Some _ =>
      if len body >? maxSize then
        (body, Some (fmt_Errorf messageSizeLargerErrFmt
                       [ArgInt (len body); ArgInt maxSize]))
      else (body, err)
  | None => (body, err)
  end.

Definition decompressRequest (reader : Reader) (expectedSize maxSize : Z)
    (compression : CompressionType) (sp : option Span)
  : M (bytes * option error) :=
  r <- decompressRequest_body reader expectedSize maxSize compression sp ;;
  ret (decompressRequest_deferred maxSize r).

Definition ParseProtoReader (ctx : Context) (reader : Reader)
    (expectedSize maxSize : Z) (req : T) (compression : CompressionType)
  : M (T * option error) :=
  let sp := opentracing_SpanFromContext ctx in
  logFields sp [otlog_String "event" "util.ParseProtoRequest[start reading]"] ;;
  '(body, err) <- decompressRequest reader expectedSize maxSize compression sp ;;
  match err with
  | Some e => ret (req, Some e)
  | None =>
      logFields sp [otlog_String "event" "util.ParseProtoRequest[unmarshal]";
                    otlog_Int "size" (len body)] ;;
      let req := Reset req in
      ret (match Unmarshaler with
           | Some u => u req body
           | None => Buffer_Unmarshal body req
           end)
  end.

Definition SerializeProtoResponse (w : ResponseWriter) (resp : T)
    (compression : CompressionType) : M (ResponseWriter * option error) :=
  let '(data, err) := proto_Marshal resp in
  match err with
  | Some e =>
      ret (http_Error w (error_Error e) StatusInternalServerError,
           Some (fmt_Errorf "error marshaling proto response: %v" [ArgError e]))
  | None =>
      data <- (if compression =? NoCompression then ret data
               else if compression =? RawSnappy then snappy_Encode_call data
               else ret data) ;;
      let '(w, err) := ResponseWriter_Write w data in
      match err with
      | Some e =>
          ret (http_Error w (error_Error e) StatusInternalServerError,
               Some (fmt_Errorf "error sending proto response: %v" [ArgError e]))
      | None => ret (w, None)
      end
  end.

End Package.

(** ** A snappy block codec

    The block format of [github.com/golang/snappy]: a uvarint with the
    decoded length, then literal and copy elements. [decode] follows the
    library's decoder; the encoder is a run-length one, which emits valid
    blocks (the library's encoder finds more matches; the format and the
    decoder are the same). *)

Definition byteZ (b : byte) : Z := Z.of_N (Byte.to_N b).

Definition Zbyte (z : Z) : byte :=
  match Byte.of_N (Z.to_N (z mod 256)) with
  | Some b => b
  | None => Byte.x00
  end.

Definition ErrCorrupt : error := errorString "snappy: corrupt input".
Definition errUnsupportedLiteralLength : error :=
  errorString "snappy: unsupported literal length".

(** [binary.Uvarint]: the value and the number of bytes read, [None] when
    the buffer is too short or the value overflows 64 bits. *)
Fixpoint Uvarint_from (i : nat) (shift : Z) (acc : Z) (src : bytes)
  : option (Z * Z) :=
  match src with
  | [] => None
  | b :: rest =>
      if byteZ b <? 128 then
        if ((i =? 9)%nat && (1 <? byteZ b))%bool then None
        else Some (Z.lor acc (Z.shiftl (byteZ b) shift), Z.of_nat (S i))
      else if (i =? 9)%nat then None
      else Uvarint_from (S i) (shift + 7)
             (Z.lor acc (Z.shiftl (Z.land (byteZ b) 127) shift)) rest
  end.

Definition Uvarint (src : bytes) : option (Z * Z) := Uvarint_from 0 0 0 src.

(** [binary.PutUvarint]. *)
Fixpoint PutUvarint_fuel (fuel : nat) (x : Z) : bytes :=
  match fuel with
  | O => []
  | S fuel' =>
      if x <? 128 then [Zbyte x]
      else Zbyte (Z.lor (Z.land x 127) 128) :: PutUvarint_fuel fuel' (Z.shiftr x 7)
  end.

Definition PutUvarint (x : Z) : bytes := PutUvarint_fuel 10 x.

(** [decodedLen]: block length and header length. *)
Definition decodedLen (src : bytes) : Z * Z * option error :=
  match Uvarint src with
  | Some (v, n) =>
      if v >? 4294967295 then (0, 0, Some ErrCorrupt) else (v, n, None)
  | None => (0, 0, Some ErrCorrupt)
  end.

(** Little-endian value of the bytes of [l]. *)
Fixpoint le_value (l : bytes) : Z :=
  match l with
  | [] => 0
  | b :: rest => byteZ b + 256 * le_value rest
  end.

(** [dst[d] = dst[d-offset]], [length] times. *)
Fixpoint copy_back (length : nat) (offset : nat) (out : bytes) : bytes :=
  match length with
  | O => out
  | S k =>
      copy_back k offset
        (out ++ [nth (List.length out - offset)%nat out Byte.x00])
  end.

(** The element loop of [decode]; [dLen] is [len(dst)], [out] is
    [dst[:d]]. *)
Fixpoint decode_loop (fuel : nat) (dLen : Z) (out : bytes) (src : bytes)
  : bytes * option error :=
  match fuel with
  | O => ([], Some ErrCorrupt)
  | S fuel' =>
      match src with
      | [] => if len out =? dLen then (out, None) else ([], Some ErrCorrupt)
      | tag :: rest =>
          let t := byteZ tag in
          let kind := Z.land t 3 in
          if kind =? 0 then
            (* tagLiteral *)
            let x := Z.shiftr t 2 in
            let extra := if x <? 60 then 0%nat else Z.to_nat (x - 59) in
            if (List.length rest <? extra)%nat then ([], Some ErrCorrupt)
            else
              let x := if x <? 60 then x else le_value (firstn extra rest) in
              let rest := skipn extra rest in
              let length := wrap64 (x + 1) in
              if length <=? 0 then ([], Some errUnsupportedLiteralLength)
              else if ((length >? dLen - len out) || (length >? len rest))%bool
              then ([], Some ErrCorrupt)
              else decode_loop fuel' dLen
                     (out ++ firstn (Z.to_nat length) rest)
                     (skipn (Z.to_nat length) rest)
          else
            let n := if kind =? 1 then 1%nat
                     else if kind =? 2 then 2%nat else 4%nat in
            if (List.length rest <? n)%nat then ([], Some ErrCorrupt)
            else
              let length := if kind =? 1 then 4 + Z.land (Z.shiftr t 2) 7
                            else 1 + Z.shiftr t 2 in
              let offset :=
                if kind =? 1
                then Z.lor (Z.shiftl (Z.land t 224) 3) (le_value (firstn n rest))
                else le_value (firstn n rest) in
              if ((offset <=? 0) || (len out <? offset)
                  || (length >? dLen - len out))%bool
              then ([], Some ErrCorrupt)
              else decode_loop fuel' dLen
                     (copy_back (Z.to_nat length) (Z.to_nat offset) out)
                     (skipn n rest)
      end
  end.

Definition block_Decode (src : bytes) : bytes * option error :=
  let '(dLen, s, err) := decodedLen src in
  match err with
  | Some e => ([], Some e)
  | None =>
      let body := skipn (Z.to_nat s) src in
      decode_loop (S (List.length body)) dLen [] body
  end.

Definition block_DecodedLen (src : bytes) : Z * option error :=
  let '(v, _, err) := decodedLen src in (v, err).

(** [emitLiteral] for literals of at most 60 bytes and longer ones. *)
Definition emitLiteral (lit : bytes) : bytes :=
  let n := len lit - 1 in
  if n <? 60 then Zbyte (Z.lor (Z.shiftl n 2) 0) :: lit
  else if n <? 256 then Zbyte (Z.lor (Z.shiftl 60 2) 0) :: Zbyte n :: lit
  else Zbyte (Z.lor (Z.shiftl 61 2) 0) :: Zbyte n :: Zbyte (Z.shiftr n 8) :: lit.

(** [emitCopy]: copies of more than 64 bytes are split. *)
Fixpoint emitCopy_fuel (fuel : nat) (offset length : Z) : bytes :=
  match fuel with
  | O => []
  | S fuel' =>
      if length >=? 68 then
        [Zbyte (Z.lor (Z.shiftl 63 2) 2); Zbyte offset; Zbyte (Z.shiftr offset 8)]
        ++ emitCopy_fuel fuel' offset (length - 64)
      else if length >? 64 then
        [Zbyte (Z.lor (Z.shiftl 59 2) 2); Zbyte offset; Zbyte (Z.shiftr offset 8)]
        ++ emitCopy_fuel fuel' offset (length - 60)
      else if ((length >=? 12) || (offset >=? 2048))%bool then
        [Zbyte (Z.lor (Z.shiftl (length - 1) 2) 2); Zbyte offset;
         Zbyte (Z.shiftr offset 8)]
      else
        [Zbyte (Z.lor (Z.lor (Z.shiftl (Z.shiftr offset 8) 5)
                          (Z.shiftl (length - 4) 2)) 1);
         Zbyte offset]
  end.

Definition emitCopy (offset length : Z) : bytes :=
  emitCopy_fuel (S (Z.to_nat length)) offset length.

(** Maximal runs of equal bytes. *)
Fixpoint runs (src : bytes) : list (byte * nat) :=
  match src with
  | [] => []
  | b :: rest =>
      match runs rest with
      | (c, n) :: tl =>
          if Byte.eqb b c then (c, S n) :: tl else (b, 1%nat) :: (c, n) :: tl
      | [] => [(b, 1%nat)]
      end
  end.

Definition emitRun (r : byte * nat) : bytes :=
  let '(b, n) := r in
  if (n <? 5)%nat then emitLiteral (repeat b n)
  else emitLiteral [b] ++ emitCopy 1 (Z.of_nat n - 1).

Definition block_Encode (src : bytes) : bytes :=
  PutUvarint (len src) ++ flat_map emitRun (runs src).

#[export] Instance block_snappy : Snappy := {|
  snappy_DecodedLen := block_DecodedLen;
  snappy_Decode := block_Decode;
  snappy_Encode := block_Encode
|}.

(** ** A message type

    One [bytes] field. As with generated code, unmarshalling merges into the
    receiver, which is why [ParseProtoReader] resets it first. *)

Record Blob : Type := mkBlob { payload : bytes }.

#[export] Instance Blob_message : Message Blob := {|
  Reset := fun _ => mkBlob [];
  Unmarshaler := Some (fun m body => (mkBlob (payload m ++ body), None));
  Buffer_Unmarshal := fun body m => (mkBlob (payload m ++ body), None);
  proto_Marshal := fun m => (payload m, None)
|}.

Definition world_of (s : stream) : World := mkWorld s 0 [].

(** ** Specification vocabulary *)

(** What a complete [ReadFrom] through a limited reader with [n] bytes left
    collects from the script [s]: the bytes and the error it returns. *)
Fixpoint drain (n : Z) (s : stream) : bytes * option error :=
  match s with
  | [] => ([], None)
  | (d, e) :: rest =>
      if n <=? 0 then ([], None)
      else if len d <=? n then
        match e with
        | None => let '(bs, e') := drain (n - len d) rest in (d ++ bs, e')
        | Some io_EOF => (d, None)
        | Some e' => (d, Some e')
        end
      else (firstn (Z.to_nat n) d, None)
  end.

(** The bytes a script delivers before it ends cleanly, if it does. *)
Fixpoint delivered (s : stream) : option bytes :=
  match s with
  | [] => Some []
  | (d, None) :: rest => option_map (app d) (delivered rest)
  | (d, Some io_EOF) :: _ => Some d
  | (_, Some _) :: _ => None
  end.

(** The raw bytes the package holds once acquisition is over: the source's
    own buffer, or what the limited read collects. *)
Definition acquired (reader : Reader) (w : World) (maxSize : Z) (raw : bytes)
  : Prop :=
  match reader with
  | BufferReader b => raw = Bytes b
  | PlainReader =>
      exists bs, delivered (source w) = Some bs
                 /\ raw = firstn (Z.to_nat (wrap64 (maxSize + 1))) bs
  end.

(** The pre-allocation [expectedSize + bytes.MinRead] does not overflow. *)
Definition hint_fits (reader : Reader) (expectedSize : Z) : Prop :=
  match reader with
  | PlainReader => expectedSize <= max_int - MinRead
  | BufferReader _ => True
  end.

Definition sizeExceeded (observed maxSize : Z) : error :=
  fmt_Errorf messageSizeLargerErrFmt [ArgInt observed; ArgInt maxSize].

Definition span_log (sp : option Span) (fields : list Field) : list Event :=
  match sp with
  | Some _ => [EvLogFields fields]
  | None => []
  end.

Definition start_log (ctx : Context) : list Event :=
  span_log (activeSpan ctx)
    [otlog_String "event" "util.ParseProtoRequest[start reading]"].

Definition probe_log (reader : Reader) : list Event :=
  match reader with
  | BufferReader _ => [EvBytesBuffer]
  | PlainReader => []
  end.

(** What a caller sees of a run: the returned values, or the panic. *)
Inductive Outcome (A : Type) : Type :=
| Returns (a : A)
| Panics (msg : string)
| Hangs.

Arguments Returns {A} a.
Arguments Panics {A} msg.
Arguments Hangs {A}.

Definition outcome {A : Type} (r : Res A) : Outcome A :=
  match r with
  | Val a _ => Returns a
  | Panic msg _ => Panics msg
  | Diverged => Hangs
  end.

Section Unmarshal.
Context {T : Type} {message : Message T}.

(** The unmarshalling step of [ParseProtoReader]. *)
Definition unmarshal (req : T) (body : bytes) : T * option error :=
  match Unmarshaler with
  | Some u => u req body
  | None => Buffer_Unmarshal body req
  end.

(** What [ParseProtoReader] makes of the named results of
    [decompressRequest]. *)
Definition finish (maxSize : Z) (req : T) (r : bytes * option error)
  : T * option error :=
  match decompressRequest_deferred maxSize r with
  | (_, Some err) => (req, Some err)
  | (body, None) => unmarshal (Reset req) body
  end.

End Unmarshal.

Definition add_log (w : World) (evs : list Event) : World :=
  mkWorld (source w) (reads w) (log w ++ evs).

Definition decompress_log (sp : option Span) (raw : bytes) : list Event :=
  span_log sp [otlog_String "event" "util.ParseProtoRequest[decompress]";
               otlog_Int "size" (len raw)].

Definition unmarshal_log (sp : option Span) (body : bytes) : list Event :=
  span_log sp [otlog_String "event" "util.ParseProtoRequest[unmarshal]";
               otlog_Int "size" (len body)].

(** The three places where a size is compared with [maxSize]. *)
Inductive Checkpoint : Type :=
| PreRead      (* expectedSize, before the source is touched *)
| PostRead     (* the length of the acquired bytes *)
| PostHeader.  (* the decoded length a snappy block declares *)

(** Number of calls to [snappy.Decode] in a log. *)
Fixpoint decode_calls (l : list Event) : nat :=
  match l with
  | [] => 0
  | EvDecode _ :: rest => S (decode_calls rest)
  | _ :: rest => decode_calls rest
  end.

Section Vocabulary.

Context {snappy : Snappy}.

(** [fires cp reader w expectedSize maxSize c size]: the run reaches the
    check [cp], and the size it compares there, [size], is above
    [maxSize]. A plain reader's bytes meet the post-read check only under
    [RawSnappy]. *)
Definition fires (cp : Checkpoint) (reader : Reader) (w : World)
    (expectedSize maxSize : Z) (c : CompressionType) (size : Z) : Prop :=
  match cp with
  | PreRead => expectedSize > maxSize /\ size = expectedSize
  | PostRead =>
      expectedSize <= maxSize /\ hint_fits reader expectedSize
      /\ (reader = PlainReader -> c = RawSnappy)
      /\ exists raw, acquired reader w maxSize raw
                     /\ len raw > maxSize /\ size = len raw
  | PostHeader =>
      expectedSize <= maxSize /\ hint_fits reader expectedSize
      /\ c = RawSnappy
      /\ exists raw, acquired reader w maxSize raw
                     /\ len raw <= maxSize
                     /\ snappy_DecodedLen raw = (size, None)
                     /\ size > maxSize
  end.

(** How the raw bytes become the payload under compression [c]. *)
Definition decoded (c : CompressionType) (raw body : bytes) : Prop :=
  (c = NoCompression /\ body = raw)
  \/ (c = RawSnappy
      /\ snappy_DecodedLen raw = (len body, None)
      /\ snappy_Decode raw = (body, None)).

End Vocabulary.

(** The buffer a reader exposes is within [maxSize]. *)
Definition buffer_within (reader : Reader) (maxSize : Z) : Prop :=
  match reader with
  | BufferReader b => len (Bytes b) <= maxSize
  | PlainReader => True
  end.

(** ** Inputs used in the examples *)

(** [n] times the letter a. *)
Definition letters (n : nat) : bytes := repeat Byte.x61 n.

(** The snappy block for twenty letters: the length, a one-byte literal and
    a copy of the nineteen that follow. *)
Definition compressed_letters : bytes :=
  [Byte.x14; Byte.x00; Byte.x61; Byte.x4a; Byte.x01; Byte.x00].

(** A snappy block of seven bytes for the six bytes aaaaab: the length, a
    one-byte literal, a copy of four, a one-byte literal. *)
Definition short_block : bytes :=
  [Byte.x06; Byte.x00; Byte.x61; Byte.x01; Byte.x01; Byte.x00; Byte.x62].

(** A block that declares three bytes and holds a copy with offset zero. *)
Definition corrupt_block : bytes := [Byte.x03; Byte.x05; Byte.x00].

Definition no_span : Context := mkContext None.
Definition traced : Context := mkContext (Some (mkSpan "push")).

(** A plain reader's world that delivers [bs] in one piece. *)
Definition plain_world (bs : bytes) : World := world_of [(bs, None)].

(** A reader exposing a buffer that holds [bs]. *)
Definition buffer_of (bs : bytes) : Reader := BufferReader (mkBuffer bs (len bs)).

Definition fresh_response : ResponseWriter := mkResponseWriter None None [].

(** ** Vocabulary for the source's script *)

(** Number of bytes a script still holds. *)
Fixpoint stream_len (s : stream) : Z :=
  match s with
  | [] => 0
  | (d, _) :: rest => len d + stream_len rest
  end.

(** All the bytes a script holds, in order. *)
Fixpoint stream_bytes (s : stream) : bytes :=
  match s with
  | [] => []
  | (d, _) :: rest => d ++ stream_bytes rest
  end.

(** [remainder s s']: [s'] is what is left of the script [s] once some of
    its first bytes were read: whole chunks are gone from the front, and
    the chunk now at the head may have lost its first bytes. *)
Inductive remainder : stream -> stream -> Prop :=
| remainder_here (s : stream) : remainder s s
| remainder_chunk (d : bytes) (e : option error) (rest s' : stream) :
    remainder rest s' -> remainder ((d, e) :: rest) s'
| remainder_bytes (k : nat) (d : bytes) (e : option error) (rest s' : stream) :
    remainder ((skipn k d, e) :: rest) s' -> remainder ((d, e) :: rest) s'.

(** The bytes a script delivers before it fails, and the error (other than
    [io.EOF]) it fails with, if it does fail. *)
Fixpoint failing (s : stream) : option (bytes * error) :=
  match s with
  | [] => None
  | (d, None) :: rest =>
      option_map (fun r => (d ++ fst r, snd r)) (failing rest)
  | (_, Some io_EOF) :: _ => None
  | (d, Some e) :: _ => Some (d, e)
  end.

(** The script holds a chunk that reports [e]. *)
Definition script_reports (s : stream) (e : error) : Prop :=
  exists d, In (d, Some e) s.

(** The pre-allocation of [decompressFromReader] does not panic. *)
Definition grows (expectedSize : Z) : Prop :=
  expectedSize <= 0 \/ 0 <= wrap64 (expectedSize + MinRead).

(** The span records of a log, in order. *)
Fixpoint span_records (l : list Event) : list (list Field) :=
  match l with
  | [] => []
  | EvLogFields fields :: rest => fields :: span_records rest
  | _ :: rest => span_records rest
  end.

(** The calls into snappy of a log, in order. *)
Fixpoint snappy_calls (l : list Event) : list Event :=
  match l with
  | [] => []
  | EvLogFields _ :: rest => snappy_calls rest
  | EvBytesBuffer :: rest => snappy_calls rest
  | ev :: rest => ev :: snappy_calls rest
  end.

(** A script that delivers [bs] and then fails with [e]. *)
Definition failing_world (bs : bytes) (e : error) : World :=
  world_of [(bs, Some e)].

Definition ErrUnexpectedEOF : error := errorString "unexpected EOF".

(** * Properties *)

(** ** Integers and lists *)

Lemma wrap64_in_range (z : Z) : is_int z -> wrap64 z = z.
Proof.
  unfold is_int, wrap64, min_int, max_int. intros H.
  rewrite Z.mod_small; lia.
Qed.

Lemma wrap64_max_int_succ : wrap64 (max_int + 1) = min_int.
Proof. reflexivity. Qed.

Lemma len_nonneg {A : Type} (l : list A) : 0 <= len l.
Proof. unfold len. lia. Qed.

Lemma len_app {A : Type} (l1 l2 : list A) : len (l1 ++ l2) = len l1 + len l2.
Proof. unfold len. rewrite length_app. lia. Qed.

Lemma len_firstn {A : Type} (k : Z) (l : list A) :
  0 <= k -> len (firstn (Z.to_nat k) l) = Z.min k (len l).
Proof. intros Hk. unfold len. rewrite length_firstn. lia. Qed.

Lemma len_skipn {A : Type} (k : Z) (l : list A) :
  0 <= k <= len l -> len (skipn (Z.to_nat k) l) = len l - k.
Proof. unfold len. intros Hk. rewrite length_skipn. lia. Qed.

Lemma firstn_within {A : Type} (k : Z) (l : list A) :
  len l <= k -> firstn (Z.to_nat k) l = l.
Proof. unfold len. intros H. apply firstn_all2. lia. Qed.

Lemma firstn_plus {A : Type} (a b : nat) (l : list A) :
  firstn (a + b) l = firstn a l ++ firstn b (skipn a l).
Proof.
  revert l. induction a as [|a IH]; intros l; simpl.
  - reflexivity.
  - destruct l as [|x l]; simpl.
    + now rewrite firstn_nil.
    + now rewrite IH.
Qed.

(** ** Reading *)

Lemma Buffer_grow_Bytes (b : Buffer) (n : Z) : Bytes (Buffer_grow b n) = Bytes b.
Proof.
  unfold Buffer_grow.
  destruct (n <=? cap b - len (Bytes b)); [reflexivity|].
  destruct ((cap b =? 0) && (n <=? smallBufferSize))%bool; reflexivity.
Qed.

Lemma Buffer_grow_room (b : Buffer) :
  MinRead <= cap (Buffer_grow b MinRead) - len (Bytes (Buffer_grow b MinRead)).
Proof.
  unfold Buffer_grow.
  destruct (MinRead <=? cap b - len (Bytes b)) eqn:E.
  - apply Z.leb_le in E. exact E.
  - replace (MinRead <=? smallBufferSize) with false by reflexivity.
    rewrite andb_false_r. simpl. lia.
Qed.

(** Splitting the head chunk of a script does not change what is drained. *)
Lemma drain_split (n k : Z) (d : bytes) (e : option error) (rest : stream) :
  0 < k -> k <= n -> k < len d ->
  drain n ((d, e) :: rest)
  = let '(bs, e') := drain (n - k) ((skipn (Z.to_nat k) d, e) :: rest) in
    (firstn (Z.to_nat k) d ++ bs, e').
Proof.
  intros Hk Hkn Hkd. simpl.
  assert (Hsk : len (skipn (Z.to_nat k) d) = len d - k)
    by (apply len_skipn; lia).
  destruct (n <=? 0) eqn:En; [apply Z.leb_le in En; lia|].
  destruct (n - k <=? 0) eqn:Enk.
  - apply Z.leb_le in Enk. assert (n = k) by lia. subst n.
    destruct (len d <=? k) eqn:Ed; [apply Z.leb_le in Ed; lia|].
    now rewrite app_nil_r.
  - rewrite Hsk.
    destruct (len d <=? n) eqn:Ed.
    + apply Z.leb_le in Ed.
      replace (len d - k <=? n - k) with true by (symmetry; apply Z.leb_le; lia).
      replace (n - k - (len d - k)) with (n - len d) by lia.
      destruct e as [[|s]|].
      * now rewrite firstn_skipn.
      * now rewrite firstn_skipn.
      * destruct (drain (n - len d) rest) as [bs e'].
        now rewrite app_assoc, firstn_skipn.
    + apply Z.leb_gt in Ed.
      replace (len d - k <=? n - k) with false by (symmetry; apply Z.leb_gt; lia).
      apply Z.leb_gt in Enk.
      replace (Z.to_nat n) with (Z.to_nat k + Z.to_nat (n - k))%nat by lia.
      now rewrite firstn_plus.
Qed.

Lemma drain_nonpositive (n : Z) (s : stream) : n <= 0 -> drain n s = ([], None).
Proof.
  intros Hn. destruct s as [|[d e] rest]; simpl; [reflexivity|].
  now replace (n <=? 0) with true by (symmetry; apply Z.leb_le; lia).
Qed.

(** [ReadFrom] terminates, never touches the log, and appends to the buffer
    exactly what [drain] says, whatever the buffer's capacity. *)
Lemma ReadFrom_loop_drain (fuel : nat) :
  forall (s : stream) (b : Buffer) (l : LimitedReader) (rd : nat) (lg : list Event),
    (stream_fuel s <= fuel)%nat ->
    exists c s' rd',
      ReadFrom_loop fuel b l (mkWorld s rd lg)
      = Val (mkBuffer (Bytes b ++ fst (drain (N l) s)) c, snd (drain (N l) s))
            (mkWorld s' rd' lg)
      /\ (N l <= 0 -> s' = s /\ rd' = rd).
Proof.
  induction fuel as [|fuel IH]; intros s b l rd lg Hfuel.
  - destruct s as [|[d e] rest]; simpl in Hfuel; lia.
  - cbn [ReadFrom_loop].
    pose proof (Buffer_grow_room b) as Hroom.
    pose proof (Buffer_grow_Bytes b MinRead) as Hbytes.
    set (b1 := Buffer_grow b MinRead) in *.
    unfold bind, LimitedReader_Read.
    destruct (N l <=? 0) eqn:EN.
    + apply Z.leb_le in EN. rewrite (drain_nonpositive _ _ EN).
      cbn. rewrite Hbytes. eexists _, _, _. split; [reflexivity|]. auto.
    + apply Z.leb_gt in EN. unfold bind.
      set (p := if cap b1 - len (Bytes b1) >? N l then N l
                else cap b1 - len (Bytes b1)).
      assert (Hp : 0 < p <= N l).
      { subst p. unfold MinRead in Hroom.
        destruct (cap b1 - len (Bytes b1) >? N l) eqn:E; [lia|].
        rewrite Z.gtb_ltb in E. apply Z.ltb_ge in E. lia. }
      unfold source_Read. cbn [source reads log].
      destruct s as [|[d e] rest].
      * cbn. rewrite Hbytes. eexists _, _, _. split; [reflexivity|]. lia.
      * destruct (len d <=? p) eqn:Ed.
        -- apply Z.leb_le in Ed. cbn [ret].
           cbn [drain].
           replace (N l <=? 0) with false by (symmetry; apply Z.leb_gt; lia).
           replace (len d <=? N l) with true by (symmetry; apply Z.leb_le; lia).
           destruct e as [[|msg]|].
           ++ cbn. rewrite Hbytes. eexists _, _, _. split; [reflexivity|]. lia.
           ++ cbn. rewrite Hbytes. eexists _, _, _. split; [reflexivity|]. lia.
           ++ simpl in Hfuel.
              destruct (IH rest (mkBuffer (Bytes b1 ++ d) (cap b1))
                           (mkLimitedReader (N l - len d)) (S rd) lg)
                as (c & s' & rd' & Heq & _); [lia|].
              rewrite Heq. cbn [Bytes N].
              destruct (drain (N l - len d) rest) as [bs e'].
              cbn [fst snd]. rewrite Hbytes, <- app_assoc.
              eexists _, _, _. split; [reflexivity|]. lia.
        -- apply Z.leb_gt in Ed. cbn [ret].
           assert (Hlen : len (firstn (Z.to_nat p) d) = p)
             by (rewrite len_firstn; lia).
           rewrite Hlen.
           simpl in Hfuel.
           destruct (IH ((skipn (Z.to_nat p) d, e) :: rest)
                        (mkBuffer (Bytes b1 ++ firstn (Z.to_nat p) d) (cap b1))
                        (mkLimitedReader (N l - p)) (S rd) lg)
             as (c & s' & rd' & Heq & _).
           { cbn [stream_fuel]. rewrite length_skipn.
             unfold len in Ed. lia. }
           rewrite Heq. cbn [Bytes N].
           exists c, s', rd'. split; [|lia].
           pose proof (drain_split (N l) p d e rest) as Hsplit.
           unfold stream, chunk in *.
           rewrite Hsplit by lia.
           destruct (drain (N l - p) ((skipn (Z.to_nat p) d, e) :: rest))
             as [bs e'].
           cbn [fst snd]. now rewrite Hbytes, <- app_assoc.
Qed.

Lemma Buffer_ReadFrom_drain (b : Buffer) (l : LimitedReader) (w : World) :
  exists c s' rd',
    Buffer_ReadFrom b l w
    = Val (mkBuffer (Bytes b ++ fst (drain (N l) (source w))) c,
           snd (drain (N l) (source w)))
          (mkWorld s' rd' (log w))
    /\ (N l <= 0 -> s' = source w /\ rd' = reads w).
Proof.
  unfold Buffer_ReadFrom. destruct w as [s rd lg]. cbn [source reads log].
  apply ReadFrom_loop_drain. lia.
Qed.

Lemma drain_delivered (n : Z) (s : stream) (bs : bytes) :
  delivered s = Some bs -> drain n s = (firstn (Z.to_nat n) bs, None).
Proof.
  revert n bs. induction s as [|[d e] rest IH]; intros n bs H; simpl in *.
  - injection H as <-. now rewrite firstn_nil.
  - destruct (n <=? 0) eqn:En.
    + apply Z.leb_le in En.
      replace (Z.to_nat n) with 0%nat by lia. reflexivity.
    + apply Z.leb_gt in En.
      destruct e as [[|msg]|].
      * injection H as <-.
        destruct (len d <=? n) eqn:Ed; [|reflexivity].
        apply Z.leb_le in Ed. now rewrite firstn_within.
      * discriminate.
      * destruct (delivered rest) as [bs'|] eqn:Hrest; [|discriminate].
        injection H as <-.
        destruct (len d <=? n) eqn:Ed.
        -- apply Z.leb_le in Ed. rewrite (IH _ bs' eq_refl).
           replace (Z.to_nat n) with (Z.to_nat (len d) + Z.to_nat (n - len d))%nat
             by (pose proof (len_nonneg d); lia).
           assert (Hd : Z.to_nat (len d) = List.length d) by (unfold len; lia).
           rewrite firstn_plus, Hd.
           rewrite firstn_app, Nat.sub_diag, firstn_O, app_nil_r, firstn_all.
           now rewrite skipn_app, skipn_all, Nat.sub_diag, skipn_O.
        -- apply Z.leb_gt in Ed. rewrite firstn_app.
           replace (Z.to_nat n - List.length d)%nat with 0%nat
             by (unfold len in Ed; lia).
           now rewrite firstn_O, app_nil_r.
Qed.

(** ** The package, function by function *)

Lemma add_log_nil (w : World) : add_log w [] = w.
Proof. destruct w. unfold add_log. cbn. now rewrite app_nil_r. Qed.

Lemma add_log_app (w : World) (e1 e2 : list Event) :
  add_log (add_log w e1) e2 = add_log w (e1 ++ e2).
Proof. unfold add_log. cbn. now rewrite app_assoc. Qed.

Lemma sizeExceeded_message (observed maxSize : Z) :
  error_Error (sizeExceeded observed maxSize)
  = String.append "received message larger than max ("
      (String.append (itoa observed)
         (String.append " vs " (String.append (itoa maxSize) ")"))).
Proof. reflexivity. Qed.

Section PackageFacts.

Context {snappy : Snappy} {T : Type} {message : Message T}.

Lemma logFields_run (sp : option Span) (fields : list Field) (w : World) :
  logFields sp fields w = Val tt (add_log w (span_log sp fields)).
Proof.
  destruct sp; cbn; [reflexivity|]. now rewrite add_log_nil.
Qed.

Ltac pick_snappy :=
  change (RawSnappy =? NoCompression) with false;
  change (RawSnappy =? RawSnappy) with true;
  cbv iota.
Ltac leb_true := match goal with
  | |- context [?a >? ?b] =>
      replace (a >? b) with true by (symmetry; apply Z.gtb_lt; lia)
  end.
Ltac leb_false := match goal with
  | |- context [?a >? ?b] =>
      replace (a >? b) with false
        by (symmetry; rewrite Z.gtb_ltb; apply Z.ltb_ge; lia)
  end.

(** *** decompressFromBuffer *)

Lemma decompressFromBuffer_over (b : Buffer) (maxSize : Z)
    (c : CompressionType) (sp : option Span) (w : World) :
  len (Bytes b) > maxSize ->
  decompressFromBuffer b maxSize c sp w
  = Val ([], Some (sizeExceeded (len (Bytes b)) maxSize)) w.
Proof. intros H. unfold decompressFromBuffer. leb_true. reflexivity. Qed.

Lemma decompressFromBuffer_plain (b : Buffer) (maxSize : Z)
    (sp : option Span) (w : World) :
  len (Bytes b) <= maxSize ->
  decompressFromBuffer b maxSize NoCompression sp w = Val (Bytes b, None) w.
Proof. intros H. unfold decompressFromBuffer. leb_false. reflexivity. Qed.

Lemma decompressFromBuffer_unknown (b : Buffer) (maxSize : Z)
    (c : CompressionType) (sp : option Span) (w : World) :
  len (Bytes b) <= maxSize -> c <> NoCompression -> c <> RawSnappy ->
  decompressFromBuffer b maxSize c sp w = Val ([], None) w.
Proof.
  intros H H0 H1. unfold decompressFromBuffer. leb_false.
  apply Z.eqb_neq in H0, H1. now rewrite H0, H1.
Qed.

Lemma decompressFromBuffer_header_error (b : Buffer) (maxSize size : Z)
    (e : error) (sp : option Span) (w : World) :
  len (Bytes b) <= maxSize ->
  snappy_DecodedLen (Bytes b) = (size, Some e) ->
  decompressFromBuffer b maxSize RawSnappy sp w
  = Val ([], Some e)
        (add_log w (decompress_log sp (Bytes b) ++ [EvDecodedLen (Bytes b)])).
Proof.
  intros H Hd. unfold decompressFromBuffer. leb_false. pick_snappy.
  unfold bind. rewrite logFields_run. unfold snappy_DecodedLen_call, bind, emit.
  cbn. rewrite Hd. cbn. unfold add_log. cbn. now rewrite app_assoc.
Qed.

Lemma decompressFromBuffer_header_over (b : Buffer) (maxSize size : Z)
    (sp : option Span) (w : World) :
  len (Bytes b) <= maxSize ->
  snappy_DecodedLen (Bytes b) = (size, None) ->
  size > maxSize ->
  decompressFromBuffer b maxSize RawSnappy sp w
  = Val ([], Some (sizeExceeded size maxSize))
        (add_log w (decompress_log sp (Bytes b) ++ [EvDecodedLen (Bytes b)])).
Proof.
  intros H Hd Hs. unfold decompressFromBuffer. leb_false. pick_snappy.
  unfold bind. rewrite logFields_run. unfold snappy_DecodedLen_call, bind, emit.
  cbn. rewrite Hd. cbn. leb_true. cbn. unfold add_log. cbn.
  now rewrite app_assoc.
Qed.

Lemma decompressFromBuffer_decode (b : Buffer) (maxSize size : Z)
    (body : bytes) (err : option error) (sp : option Span) (w : World) :
  len (Bytes b) <= maxSize ->
  snappy_DecodedLen (Bytes b) = (size, None) ->
  size <= maxSize ->
  snappy_Decode (Bytes b) = (body, err) ->
  decompressFromBuffer b maxSize RawSnappy sp w
  = Val (match err with Some e => ([], Some e) | None => (body, None) end)
        (add_log w (decompress_log sp (Bytes b)
                    ++ [EvDecodedLen (Bytes b); EvDecode (Bytes b)])).
Proof.
  intros H Hd Hs Hb. unfold decompressFromBuffer. leb_false. pick_snappy.
  unfold bind. rewrite logFields_run. unfold snappy_DecodedLen_call, bind, emit.
  cbn. rewrite Hd. cbn. leb_false. unfold snappy_Decode_call, bind, emit.
  cbn. rewrite Hb. unfold add_log. cbn.
  destruct err; cbn; now rewrite <- !app_assoc.
Qed.

(** The result of [decompressFromBuffer] depends on the buffer's bytes only:
    not on its capacity, not on the state of the source. *)
Lemma decompressFromBuffer_frame (b b' : Buffer) (maxSize : Z)
    (c : CompressionType) (sp : option Span) (w w' : World) :
  Bytes b = Bytes b' ->
  exists v evs,
    decompressFromBuffer b maxSize c sp w = Val v (add_log w evs)
    /\ decompressFromBuffer b' maxSize c sp w' = Val v (add_log w' evs).
Proof.
  intros Hb.
  destruct (Z_gt_le_dec (len (Bytes b)) maxSize) as [Hover|Hin].
  - exists ([], Some (sizeExceeded (len (Bytes b)) maxSize)), [].
    rewrite !add_log_nil. split.
    + now apply decompressFromBuffer_over.
    + rewrite Hb in *. now apply decompressFromBuffer_over.
  - destruct (Z.eq_dec c NoCompression) as [->|Hc0].
    { exists (Bytes b, None), []. rewrite !add_log_nil. split.
      - now apply decompressFromBuffer_plain.
      - rewrite Hb in *. now apply decompressFromBuffer_plain. }
    destruct (Z.eq_dec c RawSnappy) as [->|Hc1].
    2:{ exists ([], None), []. rewrite !add_log_nil. split.
        - now apply decompressFromBuffer_unknown.
        - rewrite Hb in *. now apply decompressFromBuffer_unknown. }
    destruct (snappy_DecodedLen (Bytes b)) as [size [e|]] eqn:Hd.
    { eexists _, _. split.
      - eapply decompressFromBuffer_header_error; eauto.
      - rewrite Hb in *. eapply decompressFromBuffer_header_error; eauto. }
    destruct (Z_gt_le_dec size maxSize) as [Hs|Hs].
    { eexists _, _. split.
      - eapply decompressFromBuffer_header_over; eauto.
      - rewrite Hb in *. eapply decompressFromBuffer_header_over; eauto. }
    destruct (snappy_Decode (Bytes b)) as [body err] eqn:Hdec.
    eexists _, _. split.
    + eapply decompressFromBuffer_decode; eauto.
    + rewrite Hb in *. eapply decompressFromBuffer_decode; eauto.
Qed.

(** *** decompressFromReader *)

Lemma Buffer_Grow_hint (expectedSize : Z) (w : World) :
  expectedSize <= max_int - MinRead ->
  exists b,
    (if expectedSize >? 0
     then Buffer_Grow Buffer_zero (wrap64 (expectedSize + MinRead))
     else ret Buffer_zero) w = Val b w
    /\ Bytes b = [].
Proof.
  intros H. destruct (expectedSize >? 0) eqn:E.
  - apply Z.gtb_lt in E.
    rewrite wrap64_in_range
      by (unfold is_int, min_int, max_int, MinRead in *; lia).
    unfold Buffer_Grow.
    replace (expectedSize + MinRead <? 0) with false
      by (symmetry; apply Z.ltb_ge; unfold MinRead; lia).
    eexists. split; [reflexivity|]. apply Buffer_grow_Bytes.
  - exists Buffer_zero. split; reflexivity.
Qed.

(** With a hint this large the pre-allocation size wraps around and
    [Grow] panics. *)
Lemma Buffer_Grow_overflow (expectedSize : Z) (w : World) :
  max_int - MinRead < expectedSize <= max_int ->
  (if expectedSize >? 0
   then Buffer_Grow Buffer_zero (wrap64 (expectedSize + MinRead))
   else ret Buffer_zero) w
  = Panic "bytes.Buffer.Grow: negative count" w.
Proof.
  intros H. unfold max_int, MinRead in H.
  replace (expectedSize >? 0) with true by (symmetry; apply Z.gtb_lt; lia).
  unfold Buffer_Grow.
  assert (Hw : wrap64 (expectedSize + MinRead) < 0).
  { unfold wrap64, MinRead.
    replace (expectedSize + 512 + 2 ^ 63)
      with ((expectedSize + 512 - 2 ^ 63) + 1 * 2 ^ 64) by lia.
    rewrite Z.mod_add by lia. rewrite Z.mod_small; lia. }
  now replace (wrap64 (expectedSize + MinRead) <? 0) with true
    by (symmetry; apply Z.ltb_lt; lia).
Qed.

(** The limited read, as [decompressFromReader] performs it. *)
Lemma decompressFromReader_read (expectedSize maxSize : Z) (w : World) :
  expectedSize <= max_int - MinRead ->
  exists b0 b w1,
    (if expectedSize >? 0
     then Buffer_Grow Buffer_zero (wrap64 (expectedSize + MinRead))
     else ret Buffer_zero) w = Val b0 w
    /\ Buffer_ReadFrom b0 (io_LimitReader (wrap64 (maxSize + 1))) w
       = Val (b, snd (drain (wrap64 (maxSize + 1)) (source w))) w1
    /\ Bytes b = fst (drain (wrap64 (maxSize + 1)) (source w))
    /\ log w1 = log w.
Proof.
  intros H. destruct (Buffer_Grow_hint expectedSize w H) as (b0 & Hg & Hb0).
  destruct (Buffer_ReadFrom_drain b0 (io_LimitReader (wrap64 (maxSize + 1))) w)
    as (c & s' & rd' & Hr & _).
  cbn [N io_LimitReader] in Hr. rewrite Hb0 in Hr. cbn [app] in Hr.
  exists b0, (mkBuffer (fst (drain (wrap64 (maxSize + 1)) (source w))) c),
    (mkWorld s' rd' (log w)).
  repeat split; assumption.
Qed.

Lemma decompressFromReader_NoCompression (expectedSize maxSize : Z)
    (sp : option Span) (w : World) :
  expectedSize <= max_int - MinRead ->
  exists w1,
    decompressFromReader expectedSize maxSize NoCompression sp w
    = Val (drain (wrap64 (maxSize + 1)) (source w)) w1
    /\ log w1 = log w.
Proof.
  intros H.
  destruct (decompressFromReader_read expectedSize maxSize w H)
    as (b0 & b & w1 & Hg & Hr & Hb & Hl).
  exists w1. split; [|exact Hl].
  unfold decompressFromReader, bind at 1. rewrite Hg.
  change (NoCompression =? NoCompression) with true. cbv iota.
  unfold bind. rewrite Hr. cbn.
  rewrite Hb. now destruct (drain (wrap64 (maxSize + 1)) (source w)).
Qed.

Lemma decompressFromReader_RawSnappy (expectedSize maxSize : Z)
    (sp : option Span) (w : World) :
  expectedSize <= max_int - MinRead ->
  exists b w1,
    Bytes b = fst (drain (wrap64 (maxSize + 1)) (source w))
    /\ log w1 = log w
    /\ decompressFromReader expectedSize maxSize RawSnappy sp w
       = match snd (drain (wrap64 (maxSize + 1)) (source w)) with
         | Some e => Val ([], Some e) w1
         | None => decompressFromBuffer b maxSize RawSnappy sp w1
         end.
Proof.
  intros H.
  destruct (decompressFromReader_read expectedSize maxSize w H)
    as (b0 & b & w1 & Hg & Hr & Hb & Hl).
  exists b, w1. split; [exact Hb|]. split; [exact Hl|].
  unfold decompressFromReader, bind at 1. rewrite Hg.
  pick_snappy. unfold bind. rewrite Hr.
  now destruct (snd (drain (wrap64 (maxSize + 1)) (source w))).
Qed.

Lemma decompressFromReader_unknown (expectedSize maxSize : Z)
    (c : CompressionType) (sp : option Span) (w : World) :
  expectedSize <= max_int - MinRead ->
  c <> NoCompression -> c <> RawSnappy ->
  decompressFromReader expectedSize maxSize c sp w = Val ([], None) w.
Proof.
  intros H H0 H1.
  destruct (Buffer_Grow_hint expectedSize w H) as (b0 & Hg & _).
  unfold decompressFromReader, bind. rewrite Hg.
  apply Z.eqb_neq in H0, H1. now rewrite H0, H1.
Qed.

End PackageFacts.

Section RequestFacts.

Context {snappy : Snappy} {T : Type} {message : Message T}.

(** *** decompressRequest *)

Lemma decompressRequest_body_over (reader : Reader) (expectedSize maxSize : Z)
    (c : CompressionType) (sp : option Span) (w : World) :
  expectedSize > maxSize ->
  decompressRequest_body reader expectedSize maxSize c sp w
  = Val ([], Some (sizeExceeded expectedSize maxSize)) w.
Proof.
  intros H. unfold decompressRequest_body.
  now replace (expectedSize >? maxSize) with true
    by (symmetry; apply Z.gtb_lt; lia).
Qed.

Lemma decompressRequest_body_buffer (b : Buffer) (expectedSize maxSize : Z)
    (c : CompressionType) (sp : option Span) (w : World) :
  expectedSize <= maxSize ->
  decompressRequest_body (BufferReader b) expectedSize maxSize c sp w
  = decompressFromBuffer b maxSize c sp (add_log w [EvBytesBuffer]).
Proof.
  intros H. unfold decompressRequest_body.
  now replace (expectedSize >? maxSize) with false
    by (symmetry; rewrite Z.gtb_ltb; apply Z.ltb_ge; lia).
Qed.

Lemma decompressRequest_body_plain (expectedSize maxSize : Z)
    (c : CompressionType) (sp : option Span) (w : World) :
  expectedSize <= maxSize ->
  decompressRequest_body PlainReader expectedSize maxSize c sp w
  = decompressFromReader expectedSize maxSize c sp w.
Proof.
  intros H. unfold decompressRequest_body.
  now replace (expectedSize >? maxSize) with false
    by (symmetry; rewrite Z.gtb_ltb; apply Z.ltb_ge; lia).
Qed.

(** Under [RawSnappy] both kinds of reader end in [decompressFromBuffer],
    applied to the acquired bytes. *)
Lemma decompressRequest_body_RawSnappy (reader : Reader)
    (expectedSize maxSize : Z) (sp : option Span) (w : World) (raw : bytes) :
  expectedSize <= maxSize ->
  hint_fits reader expectedSize ->
  acquired reader w maxSize raw ->
  exists b w1,
    Bytes b = raw
    /\ log w1 = log w ++ probe_log reader
    /\ decompressRequest_body reader expectedSize maxSize RawSnappy sp w
       = decompressFromBuffer b maxSize RawSnappy sp w1.
Proof.
  intros He Hh Ha. destruct reader as [|b].
  - cbn in Hh, Ha. destruct Ha as (bs & Hbs & ->).
    rewrite decompressRequest_body_plain by exact He.
    destruct (decompressFromReader_RawSnappy expectedSize maxSize sp w Hh)
      as (b & w1 & Hb & Hl & Hrun).
    rewrite (drain_delivered _ _ _ Hbs) in Hb, Hrun. cbn [fst snd] in Hb, Hrun.
    exists b, w1. cbn [probe_log]. rewrite app_nil_r. auto.
  - cbn in Ha. subst raw.
    rewrite decompressRequest_body_buffer by exact He.
    exists b, (add_log w [EvBytesBuffer]). auto.
Qed.

(** Under [NoCompression] a plain reader's bytes skip the size check. *)
Lemma decompressRequest_body_plain_NoCompression
    (expectedSize maxSize : Z) (sp : option Span) (w : World) :
  expectedSize <= maxSize ->
  expectedSize <= max_int - MinRead ->
  exists w1,
    decompressRequest_body PlainReader expectedSize maxSize NoCompression sp w
    = Val (drain (wrap64 (maxSize + 1)) (source w)) w1
    /\ log w1 = log w.
Proof.
  intros He Hh. rewrite decompressRequest_body_plain by exact He.
  now apply decompressFromReader_NoCompression.
Qed.

Lemma decompressRequest_deferred_nil_error (maxSize : Z) (e : error) :
  decompressRequest_deferred maxSize ([], Some e)
  = ([], Some (if maxSize <? 0 then sizeExceeded 0 maxSize else e)).
Proof.
  unfold decompressRequest_deferred. change (len (@nil byte)) with 0.
  rewrite Z.gtb_ltb. now destruct (maxSize <? 0).
Qed.

Lemma decompressRequest_deferred_no_error (maxSize : Z) (body : bytes) :
  decompressRequest_deferred maxSize (body, None) = (body, None).
Proof. reflexivity. Qed.

(** *** ParseProtoReader *)

Ltac enter_parse :=
  unfold ParseProtoReader, decompressRequest, opentracing_SpanFromContext,
    bind;
  rewrite !logFields_run; unfold start_log in *.

Lemma ParseProtoReader_of_body (ctx : Context) (reader : Reader)
    (expectedSize maxSize : Z) (req : T) (c : CompressionType)
    (w w1 : World) (r : bytes * option error) :
  decompressRequest_body reader expectedSize maxSize c (activeSpan ctx)
    (add_log w (start_log ctx)) = Val r w1 ->
  ParseProtoReader ctx reader expectedSize maxSize req c w
  = match decompressRequest_deferred maxSize r with
    | (_, Some err) => Val (req, Some err) w1
    | (body, None) =>
        Val (unmarshal (Reset req) body)
            (add_log w1 (unmarshal_log (activeSpan ctx) body))
    end.
Proof.
  intros H. enter_parse.
  rewrite H. cbn [ret].
  destruct (decompressRequest_deferred maxSize r) as [body [err|]].
  - reflexivity.
  - unfold bind. rewrite logFields_run. reflexivity.
Qed.

Lemma ParseProtoReader_panics (ctx : Context) (reader : Reader)
    (expectedSize maxSize : Z) (req : T) (c : CompressionType)
    (w w1 : World) (msg : string) :
  decompressRequest_body reader expectedSize maxSize c (activeSpan ctx)
    (add_log w (start_log ctx)) = Panic msg w1 ->
  ParseProtoReader ctx reader expectedSize maxSize req c w = Panic msg w1.
Proof.
  intros H. enter_parse.
  now rewrite H.
Qed.

(** Two runs whose decompression returns the same values return the same
    values. *)
Lemma ParseProtoReader_outcome (ctx : Context) (reader reader' : Reader)
    (e e' maxSize : Z) (req : T) (c : CompressionType) (w w' : World) :
  outcome (decompressRequest_body reader e maxSize c (activeSpan ctx)
             (add_log w (start_log ctx)))
  = outcome (decompressRequest_body reader' e' maxSize c (activeSpan ctx)
               (add_log w' (start_log ctx))) ->
  outcome (ParseProtoReader ctx reader e maxSize req c w)
  = outcome (ParseProtoReader ctx reader' e' maxSize req c w').
Proof.
  intros H.
  destruct (decompressRequest_body reader e maxSize c (activeSpan ctx)
              (add_log w (start_log ctx))) as [r w1|msg w1|] eqn:E1;
  destruct (decompressRequest_body reader' e' maxSize c (activeSpan ctx)
              (add_log w' (start_log ctx))) as [r' w1'|msg' w1'|] eqn:E2;
  cbn in H; try discriminate.
  - injection H as <-.
    rewrite (ParseProtoReader_of_body _ _ _ _ _ _ _ _ _ E1).
    rewrite (ParseProtoReader_of_body _ _ _ _ _ _ _ _ _ E2).
    now destruct (decompressRequest_deferred maxSize r) as [body [err|]].
  - injection H as <-.
    rewrite (ParseProtoReader_panics _ _ _ _ _ _ _ _ _ E1).
    now rewrite (ParseProtoReader_panics _ _ _ _ _ _ _ _ _ E2).
  - enter_parse. now rewrite E1, E2.
Qed.

End RequestFacts.

(** * The claims *)

Lemma decode_calls_app (l1 l2 : list Event) :
  decode_calls (l1 ++ l2) = (decode_calls l1 + decode_calls l2)%nat.
Proof.
  induction l1 as [|[] l1 IH]; cbn; auto.
Qed.

Lemma decode_calls_span_log (sp : option Span) (fields : list Field) :
  decode_calls (span_log sp fields) = 0%nat.
Proof. now destruct sp. Qed.

Lemma decode_calls_probe_log (reader : Reader) :
  decode_calls (probe_log reader) = 0%nat.
Proof. now destruct reader. Qed.

Section Claims.

Context {snappy : Snappy} {T : Type} {message : Message T}.

Lemma acquired_add_log (reader : Reader) (w : World) (evs : list Event)
    (maxSize : Z) (raw : bytes) :
  acquired reader w maxSize raw -> acquired reader (add_log w evs) maxSize raw.
Proof. destruct reader; auto. Qed.

Lemma negative_false (m : Z) : 0 <= m -> (m <? 0) = false.
Proof. intros H. apply Z.ltb_ge. exact H. Qed.

Lemma outcome_Returns {A : Type} (r : Res A) (a : A) :
  outcome r = Returns a -> exists w, r = Val a w.
Proof.
  destruct r as [a' w|msg w|]; cbn; intros H; try discriminate.
  injection H as ->. now exists w.
Qed.

(** The value returned when the pre-read check fires. *)
Lemma ParseProtoReader_pre_read (ctx : Context) (reader : Reader)
    (expectedSize maxSize : Z) (req : T) (c : CompressionType) (w : World) :
  expectedSize > maxSize ->
  outcome (ParseProtoReader ctx reader expectedSize maxSize req c w)
  = Returns (req, Some (sizeExceeded
                          (if maxSize <? 0 then 0 else expectedSize) maxSize)).
Proof.
  intros H.
  rewrite (ParseProtoReader_of_body ctx reader expectedSize maxSize req c w
             (add_log w (start_log ctx))
             ([], Some (sizeExceeded expectedSize maxSize)))
    by (now apply decompressRequest_body_over).
  rewrite decompressRequest_deferred_nil_error.
  now destruct (maxSize <? 0).
Qed.

(** The pre-read check, for every [maxSize]. When [expectedSize > maxSize],
    [ParseProtoReader] fails with the size-exceeded error without reading:
    the source is as it was, no [Read] was made and the reader was not even
    probed for a buffer; the request is untouched. Line 64 builds the error
    from [(expectedSize, maxSize)], and that is what the caller gets when
    [maxSize] is not negative; with a negative [maxSize] the deferred
    closure finds the nil body longer than [maxSize] and replaces the error
    with [(0, maxSize)]. *)
Theorem pre_read_check_rejects_without_reading (ctx : Context) (reader : Reader)
    (expectedSize maxSize : Z) (req : T) (c : CompressionType) (w : World) :
  expectedSize > maxSize ->
  ParseProtoReader ctx reader expectedSize maxSize req c w
  = Val (req, Some (sizeExceeded (if maxSize <? 0 then 0 else expectedSize)
                      maxSize))
        (add_log w (start_log ctx)).
Proof.
  intros Hover.
  assert (Hbody :
    decompressRequest_body reader expectedSize maxSize c (activeSpan ctx)
      (add_log w (start_log ctx))
    = Val ([], Some (sizeExceeded expectedSize maxSize))
          (add_log w (start_log ctx))).
  { unfold decompressRequest_body.
    now replace (expectedSize >? maxSize) with true
      by (symmetry; apply Z.gtb_lt; lia). }
  rewrite (ParseProtoReader_of_body _ _ _ _ _ _ _ _ _ Hbody).
  unfold decompressRequest_deferred. change (len (@nil byte)) with 0.
  rewrite Z.gtb_ltb. now destruct (maxSize <? 0).
Qed.

(** The three checkpoints, for every [maxSize]. At whichever of them a
    size violation is detected, [ParseProtoReader] returns an error built
    from [messageSizeLargerErrFmt] and [maxSize]; its first number is the
    size found at the checkpoint when [maxSize] is not negative, and [0]
    when it is (the deferred closure then overwrites the error, as at the
    pre-read check). *)
Theorem size_errors_share_one_format (cp : Checkpoint) (ctx : Context)
    (reader : Reader) (expectedSize maxSize : Z) (req : T)
    (c : CompressionType) (w : World) (size : Z) :
  fires cp reader w expectedSize maxSize c size ->
  exists w',
    ParseProtoReader ctx reader expectedSize maxSize req c w
    = Val (req, Some (fmt_Errorf messageSizeLargerErrFmt
                        [ArgInt (if maxSize <? 0 then 0 else size);
                         ArgInt maxSize])) w'.
Proof.
  intros Hf. fold (sizeExceeded (if maxSize <? 0 then 0 else size) maxSize).
  destruct cp; cbn in Hf.
  - destruct Hf as [Hover ->].
    apply outcome_Returns. now apply ParseProtoReader_pre_read.
  - destruct Hf as (He & Hh & Hc & raw & Ha & Hover & ->).
    set (w0 := add_log w (start_log ctx)).
    assert (Hrun : exists w1,
      decompressRequest_body reader expectedSize maxSize c (activeSpan ctx) w0
      = Val ([], Some (sizeExceeded (len raw) maxSize)) w1).
    { destruct reader as [|b].
      - rewrite (Hc eq_refl).
        destruct (decompressRequest_body_RawSnappy PlainReader expectedSize
                    maxSize (activeSpan ctx) w0 raw He Hh
                    (acquired_add_log _ _ _ _ _ Ha))
          as (b & w1 & Hb & _ & ->).
        subst raw. eexists. now apply decompressFromBuffer_over.
      - cbn in Ha. subst raw. eexists.
        rewrite decompressRequest_body_buffer by exact He.
        now apply decompressFromBuffer_over. }
    destruct Hrun as (w1 & Hrun). exists w1.
    rewrite (ParseProtoReader_of_body _ _ _ _ _ _ _ _ _ Hrun).
    rewrite decompressRequest_deferred_nil_error.
    now destruct (maxSize <? 0).
  - destruct Hf as (He & Hh & -> & raw & Ha & Hin & Hd & Hover).
    set (w0 := add_log w (start_log ctx)).
    destruct (decompressRequest_body_RawSnappy reader expectedSize
                maxSize (activeSpan ctx) w0 raw He Hh
                (acquired_add_log _ _ _ _ _ Ha))
      as (b & w1 & Hb & _ & Hrun).
    subst raw.
    rewrite (decompressFromBuffer_header_over b maxSize size) in Hrun
      by assumption.
    eexists.
    rewrite (ParseProtoReader_of_body _ _ _ _ _ _ _ _ _ Hrun).
    rewrite decompressRequest_deferred_nil_error.
    now destruct (maxSize <? 0).
Qed.

(** C5. A [RawSnappy] input within the size budget whose header declares
    more than [maxSize] bytes is rejected with the size-exceeded error
    carrying the declared length, and [snappy.Decode] is not called: the
    log gains the span records, the buffer probe and one [DecodedLen]
    call, nothing else. *)
Theorem C5_declared_length_checked_before_decode (ctx : Context)
    (reader : Reader) (expectedSize maxSize : Z) (req : T) (w : World)
    (raw : bytes) (size : Z) :
  expectedSize <= maxSize ->
  hint_fits reader expectedSize ->
  acquired reader w maxSize raw ->
  len raw <= maxSize ->
  snappy_DecodedLen raw = (size, None) ->
  size > maxSize ->
  exists w',
    ParseProtoReader ctx reader expectedSize maxSize req RawSnappy w
    = Val (req, Some (sizeExceeded size maxSize)) w'
    /\ log w' = log w ++ start_log ctx ++ probe_log reader
                ++ decompress_log (activeSpan ctx) raw ++ [EvDecodedLen raw]
    /\ decode_calls (log w') = decode_calls (log w).
Proof.
  intros He Hh Ha Hin Hd Hover.
  set (w0 := add_log w (start_log ctx)).
  destruct (decompressRequest_body_RawSnappy reader expectedSize
              maxSize (activeSpan ctx) w0 raw He Hh
              (acquired_add_log _ _ _ _ _ Ha))
    as (b & w1 & Hb & Hl & Hrun).
  subst raw.
  rewrite (decompressFromBuffer_header_over b maxSize size) in Hrun
    by assumption.
  eexists. split; [|split].
  - rewrite (ParseProtoReader_of_body _ _ _ _ _ _ _ _ _ Hrun).
    rewrite decompressRequest_deferred_nil_error.
    rewrite negative_false; [reflexivity|].
    pose proof (len_nonneg (Bytes b)). lia.
  - cbn [log add_log]. rewrite Hl. subst w0. cbn [log add_log].
    now rewrite <- !app_assoc.
  - cbn [log add_log]. rewrite Hl. subst w0. cbn [log add_log].
    unfold start_log, decompress_log.
    rewrite !decode_calls_app, !decode_calls_span_log, decode_calls_probe_log.
    cbn. lia.
Qed.

(** C8. A [RawSnappy] input within the size budget whose header declares a
    length within [maxSize] but whose body [snappy.Decode] rejects fails
    with the decoder's own error, not with the size-exceeded error; the
    request is untouched. *)
Theorem C8_corrupt_body_reports_decode_error (ctx : Context)
    (reader : Reader) (expectedSize maxSize : Z) (req : T) (w : World)
    (raw junk : bytes) (size : Z) (cause : error) :
  expectedSize <= maxSize ->
  hint_fits reader expectedSize ->
  acquired reader w maxSize raw ->
  len raw <= maxSize ->
  snappy_DecodedLen raw = (size, None) ->
  size <= maxSize ->
  snappy_Decode raw = (junk, Some cause) ->
  exists w',
    ParseProtoReader ctx reader expectedSize maxSize req RawSnappy w
    = Val (req, Some cause) w'.
Proof.
  intros He Hh Ha Hin Hd Hs Hdec.
  set (w0 := add_log w (start_log ctx)).
  destruct (decompressRequest_body_RawSnappy reader expectedSize
              maxSize (activeSpan ctx) w0 raw He Hh
              (acquired_add_log _ _ _ _ _ Ha))
    as (b & w1 & Hb & Hl & Hrun).
  subst raw.
  rewrite (decompressFromBuffer_decode b maxSize size junk (Some cause))
    in Hrun by assumption.
  eexists.
  rewrite (ParseProtoReader_of_body _ _ _ _ _ _ _ _ _ Hrun).
  rewrite decompressRequest_deferred_nil_error.
  rewrite negative_false; [reflexivity|].
  pose proof (len_nonneg (Bytes b)). lia.
Qed.

End Claims.

Section MoreClaims.

Context {snappy : Snappy} {T : Type} {message : Message T}.

(** A payload within the budget reaches the unmarshalling step. *)
Lemma ParseProtoReader_within_budget (ctx : Context) (reader : Reader)
    (expectedSize maxSize : Z) (req : T) (c : CompressionType) (w : World)
    (raw body : bytes) :
  expectedSize <= maxSize ->
  hint_fits reader expectedSize ->
  acquired reader w maxSize raw ->
  len raw <= maxSize ->
  decoded c raw body ->
  len body <= maxSize ->
  exists w',
    ParseProtoReader ctx reader expectedSize maxSize req c w
    = Val (unmarshal (Reset req) body) w'.
Proof.
  intros He Hh Ha Hraw Hdec Hbody.
  set (w0 := add_log w (start_log ctx)).
  assert (Hrun : exists w1,
    decompressRequest_body reader expectedSize maxSize c (activeSpan ctx) w0
    = Val (body, None) w1).
  { destruct Hdec as [[-> ->]|(-> & Hd & Hdec)].
    - destruct reader as [|b].
      + destruct (decompressRequest_body_plain_NoCompression expectedSize
                    maxSize (activeSpan ctx) w0 He Hh) as (w1 & Hrun & _).
        cbn in Ha. destruct Ha as (bs & Hbs & ->).
        change (source w0) with (source w) in Hrun.
        rewrite (drain_delivered _ _ _ Hbs) in Hrun. eauto.
      + cbn in Ha. subst raw. eexists.
        rewrite decompressRequest_body_buffer by exact He.
        now apply decompressFromBuffer_plain.
    - destruct (decompressRequest_body_RawSnappy reader expectedSize
                  maxSize (activeSpan ctx) w0 raw He Hh
                  (acquired_add_log _ _ _ _ _ Ha))
        as (b & w1 & Hb & _ & Hrun).
      subst raw.
      rewrite (decompressFromBuffer_decode b maxSize (len body) body None)
        in Hrun by assumption.
      eauto. }
  destruct Hrun as (w1 & Hrun). eexists.
  now rewrite (ParseProtoReader_of_body _ _ _ _ _ _ _ _ _ Hrun).
Qed.

(** X7. On the zero-copy path an oversize buffer is rejected, whatever the
    compression, and the error reports its true length. *)
Lemma buffer_oversize_is_rejected (ctx : Context) (b : Buffer)
    (expectedSize maxSize : Z) (req : T) (c : CompressionType) (w : World) :
  expectedSize <= maxSize ->
  0 <= maxSize ->
  len (Bytes b) > maxSize ->
  ParseProtoReader ctx (BufferReader b) expectedSize maxSize req c w
  = Val (req, Some (sizeExceeded (len (Bytes b)) maxSize))
        (add_log w (start_log ctx ++ [EvBytesBuffer])).
Proof.
  intros He Hm Hover.
  rewrite (ParseProtoReader_of_body ctx (BufferReader b) expectedSize maxSize
             req c w (add_log w (start_log ctx ++ [EvBytesBuffer]))
             ([], Some (sizeExceeded (len (Bytes b)) maxSize))).
  - rewrite decompressRequest_deferred_nil_error.
    now rewrite negative_false by exact Hm.
  - rewrite decompressRequest_body_buffer by exact He.
    rewrite add_log_app. now apply decompressFromBuffer_over.
Qed.

(** X8. On the incremental path without compression nothing compares the bytes
    with [maxSize]: whatever the limited read collected is unmarshalled. *)
Lemma plain_NoCompression_is_never_size_checked (ctx : Context)
    (expectedSize maxSize : Z) (req : T) (w : World) (bs : bytes) :
  expectedSize <= maxSize ->
  expectedSize <= max_int - MinRead ->
  delivered (source w) = Some bs ->
  exists w',
    ParseProtoReader ctx PlainReader expectedSize maxSize req NoCompression w
    = Val (unmarshal (Reset req)
             (firstn (Z.to_nat (wrap64 (maxSize + 1))) bs)) w'.
Proof.
  intros He Hh Hbs.
  destruct (decompressRequest_body_plain_NoCompression expectedSize maxSize
              (activeSpan ctx) (add_log w (start_log ctx)) He Hh)
    as (w1 & Hrun & _).
  change (source (add_log w (start_log ctx))) with (source w) in Hrun.
  rewrite (drain_delivered _ _ _ Hbs) in Hrun.
  eexists. now rewrite (ParseProtoReader_of_body _ _ _ _ _ _ _ _ _ Hrun).
Qed.

(** C6, as the code has it. A payload whose final size is exactly
    [maxSize], acquired as raw bytes of length at most [maxSize], is
    accepted: it reaches the unmarshalling step, and [ParseProtoReader]
    succeeds when the payload unmarshals. (Raw bytes of length
    [maxSize + 1], which the limited read lets through, are rejected.) *)
Theorem C6_payload_of_exactly_maxSize_accepted (ctx : Context)
    (reader : Reader) (expectedSize maxSize : Z) (req msg : T)
    (c : CompressionType) (w : World) (raw body : bytes) :
  expectedSize <= maxSize ->
  hint_fits reader expectedSize ->
  acquired reader w maxSize raw ->
  len raw <= maxSize ->
  decoded c raw body ->
  len body = maxSize ->
  unmarshal (Reset req) body = (msg, None) ->
  exists w',
    ParseProtoReader ctx reader expectedSize maxSize req c w
    = Val (msg, None) w'.
Proof.
  intros He Hh Ha Hraw Hdec Hlen Hu. rewrite <- Hu.
  eapply ParseProtoReader_within_budget; eauto. lia.
Qed.



(** C10. With a compression value that is neither [NoCompression] nor
    [RawSnappy], and the size checks passed, decompression returns the nil
    slice and a nil error, so [ParseProtoReader] resets the request and
    unmarshals it from no bytes, without a single read of the source. *)
Theorem C10_unknown_compression_is_not_rejected (ctx : Context)
    (reader : Reader) (expectedSize maxSize : Z) (req empty : T)
    (c : CompressionType) (w : World) :
  c <> NoCompression -> c <> RawSnappy ->
  expectedSize <= maxSize ->
  hint_fits reader expectedSize ->
  buffer_within reader maxSize ->
  unmarshal (Reset req) [] = (empty, None) ->
  decompressRequest reader expectedSize maxSize c (activeSpan ctx) w
  = Val ([], None) (add_log w (probe_log reader))
  /\ ParseProtoReader ctx reader expectedSize maxSize req c w
     = Val (empty, None)
           (add_log w (start_log ctx ++ probe_log reader
                       ++ unmarshal_log (activeSpan ctx) [])).
Proof.
  intros H0 H1 He Hh Hb Hu.
  assert (Hrun : forall w0,
    decompressRequest_body reader expectedSize maxSize c (activeSpan ctx) w0
    = Val ([], None) (add_log w0 (probe_log reader))).
  { intros w0. destruct reader as [|b]; cbn [probe_log].
    - rewrite decompressRequest_body_plain by exact He.
      rewrite add_log_nil. now apply decompressFromReader_unknown.
    - rewrite decompressRequest_body_buffer by exact He.
      now apply decompressFromBuffer_unknown. }
  split.
  - unfold decompressRequest, bind. now rewrite Hrun.
  - rewrite (ParseProtoReader_of_body _ _ _ _ _ _ _ _ _
               (Hrun (add_log w (start_log ctx)))).
    cbn. rewrite Hu. now rewrite !add_log_app.
Qed.

(** Where the zero-copy path and the incremental path agree: the source
    delivers no more than [maxSize] bytes, and neither [maxSize + 1] nor
    the pre-allocation overflows. *)
Lemma zero_copy_equivalence_within_limit (ctx : Context)
    (expectedSize maxSize capacity : Z) (req : T) (c : CompressionType)
    (bs : bytes) (wb w : World) :
  delivered (source w) = Some bs ->
  len bs <= maxSize ->
  maxSize < max_int ->
  expectedSize <= max_int - MinRead ->
  outcome (ParseProtoReader ctx (BufferReader (mkBuffer bs capacity))
             expectedSize maxSize req c wb)
  = outcome (ParseProtoReader ctx PlainReader expectedSize maxSize req c w).
Proof.
  intros Hbs Hlen Hmax Hh.
  destruct (Z_gt_le_dec expectedSize maxSize) as [Hover|He].
  { now rewrite !ParseProtoReader_pre_read by exact Hover. }
  apply ParseProtoReader_outcome.
  set (wb0 := add_log wb (start_log ctx)).
  set (w0 := add_log w (start_log ctx)).
  rewrite decompressRequest_body_buffer by exact He.
  rewrite decompressRequest_body_plain by exact He.
  assert (Hdrain : drain (wrap64 (maxSize + 1)) (source w0) = (bs, None)).
  { change (source w0) with (source w).
    rewrite (drain_delivered _ _ _ Hbs).
    rewrite wrap64_in_range.
    - rewrite firstn_within; [reflexivity | lia].
    - pose proof (len_nonneg bs). unfold is_int, min_int, max_int in *. lia. }
  destruct (Z.eq_dec c NoCompression) as [->|Hc0].
  { destruct (decompressFromReader_NoCompression expectedSize maxSize
                (activeSpan ctx) w0 Hh) as (w1 & -> & _).
    rewrite Hdrain.
    now rewrite decompressFromBuffer_plain by exact Hlen. }
  destruct (Z.eq_dec c RawSnappy) as [->|Hc1].
  { destruct (decompressFromReader_RawSnappy expectedSize maxSize
                (activeSpan ctx) w0 Hh) as (b & w1 & Hb & _ & ->).
    rewrite Hdrain in *. cbn [fst snd] in *.
    destruct (decompressFromBuffer_frame (mkBuffer bs capacity) b maxSize
                RawSnappy (activeSpan ctx) (add_log wb0 [EvBytesBuffer]) w1)
      as (v & evs & -> & ->); [now rewrite Hb|reflexivity]. }
  rewrite decompressFromReader_unknown by assumption.
  now rewrite decompressFromBuffer_unknown by assumption.
Qed.

(** Where [expectedSize] is only a hint: two hints that pass the pre-read
    check and do not overflow the pre-allocation give the same values,
    whatever the source does. *)
Lemma expectedSize_is_only_a_hint (ctx : Context) (reader : Reader)
    (e1 e2 maxSize : Z) (req : T) (c : CompressionType) (w : World) :
  e1 <= maxSize -> e2 <= maxSize ->
  e1 <= max_int - MinRead -> e2 <= max_int - MinRead ->
  outcome (ParseProtoReader ctx reader e1 maxSize req c w)
  = outcome (ParseProtoReader ctx reader e2 maxSize req c w).
Proof.
  intros H1 H2 Hh1 Hh2. apply ParseProtoReader_outcome.
  set (w0 := add_log w (start_log ctx)).
  destruct reader as [|b].
  2:{ now rewrite !decompressRequest_body_buffer by assumption. }
  rewrite !decompressRequest_body_plain by assumption.
  destruct (Z.eq_dec c NoCompression) as [->|Hc0].
  { destruct (decompressFromReader_NoCompression e1 maxSize
                (activeSpan ctx) w0 Hh1) as (w1 & -> & _).
    destruct (decompressFromReader_NoCompression e2 maxSize
                (activeSpan ctx) w0 Hh2) as (w2 & -> & _).
    reflexivity. }
  destruct (Z.eq_dec c RawSnappy) as [->|Hc1].
  { destruct (decompressFromReader_RawSnappy e1 maxSize
                (activeSpan ctx) w0 Hh1) as (b1 & w1 & Hb1 & _ & ->).
    destruct (decompressFromReader_RawSnappy e2 maxSize
                (activeSpan ctx) w0 Hh2) as (b2 & w2 & Hb2 & _ & ->).
    destruct (snd (drain (wrap64 (maxSize + 1)) (source w0))); [reflexivity|].
    destruct (decompressFromBuffer_frame b1 b2 maxSize RawSnappy
                (activeSpan ctx) w1 w2) as (v & evs & -> & ->);
      [congruence|reflexivity]. }
  now rewrite !decompressFromReader_unknown by assumption.
Qed.

End MoreClaims.

(** ** The claims on concrete inputs *)

(** C1, failing input. A plain reader delivers 1025 bytes, [maxSize] is
    1024 and there is no compression: the limited read stops after 1025
    bytes with a nil error, the deferred closure only rewrites non-nil
    errors, and the 1025 bytes are unmarshalled. No size-exceeded error is
    returned. *)
Theorem C1_oversize_plain_source_not_rejected :
  ParseProtoReader no_span PlainReader 0 1024 (mkBlob []) NoCompression
    (plain_world (letters 1025))
  = Val (mkBlob (letters 1025), None) (mkWorld [] 3 [])
  /\ outcome (ParseProtoReader no_span PlainReader 0 1024 (mkBlob [])
                NoCompression (plain_world (letters 1025)))
     <> Returns (mkBlob [],
                 Some (errorString
                         "received message larger than max (1025 vs 1024)")).
Proof.
  split.
  - vm_compute. reflexivity.
  - vm_compute. discriminate.
Qed.

(** C2, failing input. The same three bytes, [maxSize = 2], no compression:
    the buffer path rejects them, the incremental path accepts them. *)
Theorem C2_paths_disagree_over_the_limit :
  outcome (ParseProtoReader no_span (buffer_of (letters 3)) 0 2 (mkBlob [])
             NoCompression (world_of []))
  = Returns (mkBlob [],
             Some (errorString "received message larger than max (3 vs 2)"))
  /\ outcome (ParseProtoReader no_span PlainReader 0 2 (mkBlob [])
                NoCompression (plain_world (letters 3)))
     = Returns (mkBlob (letters 3), None).
Proof. split; vm_compute; reflexivity. Qed.

(** C9, failing input. Two hints, both at most [maxSize = max_int - 1], on
    the same plain source: with [0] the three bytes are parsed, with
    [max_int - 1] the pre-allocation size [expectedSize + bytes.MinRead]
    wraps around to a negative number and [Grow] panics. *)
Theorem C9_hint_near_max_int_panics :
  outcome (ParseProtoReader no_span PlainReader 0 (max_int - 1) (mkBlob [])
             NoCompression (plain_world (letters 3)))
  = Returns (mkBlob (letters 3), None)
  /\ outcome (ParseProtoReader no_span PlainReader (max_int - 1) (max_int - 1)
                (mkBlob []) NoCompression (plain_world (letters 3)))
     = Panics "bytes.Buffer.Grow: negative count".
Proof. split; vm_compute; reflexivity. Qed.

(** A second way for the two paths to part: with [maxSize = max_int] the
    limit [int64(maxSize)+1] wraps around to [min_int], the limited reader
    reports end of input at once, and the plain path parses no bytes
    without reading; the buffer path parses the three bytes. *)
Lemma limit_wraps_at_max_int :
  ParseProtoReader no_span PlainReader 0 max_int (mkBlob []) NoCompression
    (plain_world (letters 3))
  = Val (mkBlob [], None) (plain_world (letters 3))
  /\ outcome (ParseProtoReader no_span (buffer_of (letters 3)) 0 max_int
                (mkBlob []) NoCompression (world_of []))
     = Returns (mkBlob (letters 3), None).
Proof. split; vm_compute; reflexivity. Qed.

(** C3, failing input. With [expectedSize = 5] and [maxSize = -1] the
    pre-read check fires and builds the error from [(5, -1)]; the deferred
    closure of [decompressRequest] then finds [len(body) = 0 > -1] and
    replaces it, so the caller is told [0 vs -1] and [expectedSize] is
    lost. *)
Theorem C3_negative_maxSize_loses_expectedSize :
  5 > -1
  /\ outcome (ParseProtoReader no_span PlainReader 5 (-1) (mkBlob [])
                NoCompression (world_of []))
     = Returns (mkBlob [],
                Some (errorString "received message larger than max (0 vs -1)"))
  /\ outcome (ParseProtoReader no_span PlainReader 5 (-1) (mkBlob [])
                NoCompression (world_of []))
     <> Returns (mkBlob [], Some (sizeExceeded 5 (-1))).
Proof.
  split; [reflexivity|]. split.
  - vm_compute. reflexivity.
  - vm_compute. discriminate.
Qed.

(** C4, failing input. A buffer of three bytes against [maxSize = -1] is
    caught by the post-read check, which builds the error from [(3, -1)];
    the deferred closure of [decompressRequest] replaces it, so the caller
    is told [0 vs -1]: the format is kept, the observed size is lost. *)
Theorem C4_negative_maxSize_loses_observed_size :
  fires PostRead (buffer_of (letters 3)) (world_of []) (-1) (-1)
    NoCompression 3
  /\ outcome (ParseProtoReader no_span (buffer_of (letters 3)) (-1) (-1)
                (mkBlob []) NoCompression (world_of []))
     = Returns (mkBlob [],
                Some (errorString "received message larger than max (0 vs -1)"))
  /\ outcome (ParseProtoReader no_span (buffer_of (letters 3)) (-1) (-1)
                (mkBlob []) NoCompression (world_of []))
     <> Returns (mkBlob [], Some (sizeExceeded 3 (-1))).
Proof.
  split; [|split].
  - cbn [fires]. split; [lia|]. split; [exact I|].
    split; [discriminate|].
    exists (letters 3). split; [reflexivity|]. split; reflexivity.
  - vm_compute. reflexivity.
  - vm_compute. discriminate.
Qed.

(** C6 fails as stated: a block of seven bytes decodes to exactly six, and
    with [maxSize = 6] its seven raw bytes are within the read cap of
    [maxSize + 1]; it is rejected on either path, because the raw length is
    compared with [maxSize]. *)
Lemma C6_counterexample_raw_length_over_maxSize :
  snappy_Decode short_block = (letters 5 ++ [Byte.x62], None)
  /\ len (letters 5 ++ [Byte.x62]) = 6
  /\ len short_block = 6 + 1
  /\ outcome (ParseProtoReader no_span (buffer_of short_block) 0 6 (mkBlob [])
                RawSnappy (world_of []))
     = Returns (mkBlob [],
                Some (errorString "received message larger than max (7 vs 6)"))
  /\ outcome (ParseProtoReader no_span PlainReader 0 6 (mkBlob []) RawSnappy
                (plain_world short_block))
     = Returns (mkBlob [],
                Some (errorString "received message larger than max (7 vs 6)")).
Proof. repeat split; vm_compute; reflexivity. Qed.


(** The pre-read check at [expectedSize = 10], [maxSize = 5]. *)
Lemma pre_read_check_example :
  ParseProtoReader traced PlainReader 10 5 (mkBlob []) RawSnappy
    (plain_world (letters 3))
  = Val (mkBlob [],
         Some (errorString "received message larger than max (10 vs 5)"))
        (mkWorld [(letters 3, None)] 0
           [EvLogFields
              [otlog_String "event" "util.ParseProtoRequest[start reading]"]]).
Proof.
  apply (pre_read_check_rejects_without_reading traced PlainReader 10 5 (mkBlob [])
           RawSnappy (plain_world (letters 3))).
  reflexivity.
Defined.

(** The post-header checkpoint: a six-byte block that declares twenty
    bytes, [maxSize = 10]. *)
Lemma size_error_format_example :
  exists w',
    ParseProtoReader no_span PlainReader 6 10 (mkBlob []) RawSnappy
      (plain_world compressed_letters)
    = Val (mkBlob [],
           Some (errorString "received message larger than max (20 vs 10)"))
          w'.
Proof.
  apply (size_errors_share_one_format PostHeader no_span PlainReader 6 10
           (mkBlob []) RawSnappy (plain_world compressed_letters) 20).
  cbn [fires]. split; [lia|]. split; [vm_compute; discriminate|].
  split; [reflexivity|].
  exists compressed_letters. split.
  - exists compressed_letters. split; reflexivity.
  - split; [vm_compute; discriminate|]. split; reflexivity.
Defined.

(** C5 on the zero-copy path: the same block, [maxSize = 10], with a span. *)
Lemma C5_witness :
  exists w',
    ParseProtoReader traced (buffer_of compressed_letters) 6 10 (mkBlob [])
      RawSnappy (world_of [])
    = Val (mkBlob [], Some (sizeExceeded 20 10)) w'
    /\ log w'
       = log (world_of []) ++ start_log traced
         ++ probe_log (buffer_of compressed_letters)
         ++ decompress_log (activeSpan traced) compressed_letters
         ++ [EvDecodedLen compressed_letters]
    /\ decode_calls (log w') = decode_calls (log (world_of [])).
Proof.
  apply (C5_declared_length_checked_before_decode traced
           (buffer_of compressed_letters) 6 10 (mkBlob []) (world_of [])
           compressed_letters 20).
  - lia.
  - exact I.
  - reflexivity.
  - vm_compute. discriminate.
  - reflexivity.
  - reflexivity.
Defined.

(** C6 under [RawSnappy] on the zero-copy path, without a hint: the block
    decodes to exactly [maxSize = 20] bytes. *)
Lemma C6_witness :
  exists w',
    ParseProtoReader traced (buffer_of compressed_letters) 0 20
      (mkBlob [Byte.x62]) RawSnappy (world_of [])
    = Val (mkBlob (letters 20), None) w'.
Proof.
  apply (C6_payload_of_exactly_maxSize_accepted traced
           (buffer_of compressed_letters) 0 20 (mkBlob [Byte.x62])
           (mkBlob (letters 20)) RawSnappy (world_of []) compressed_letters
           (letters 20)).
  - lia.
  - exact I.
  - reflexivity.
  - vm_compute. discriminate.
  - right. repeat split.
  - reflexivity.
  - reflexivity.
Defined.


(** C8 on a block whose header is valid and whose copy element is not. *)
Lemma C8_witness :
  exists w',
    ParseProtoReader traced (buffer_of corrupt_block) 3 10 (mkBlob [])
      RawSnappy (world_of [])
    = Val (mkBlob [], Some ErrCorrupt) w'.
Proof.
  apply (C8_corrupt_body_reports_decode_error traced (buffer_of corrupt_block)
           3 10 (mkBlob []) (world_of []) corrupt_block [] 3 ErrCorrupt).
  - lia.
  - exact I.
  - reflexivity.
  - vm_compute. discriminate.
  - reflexivity.
  - vm_compute. discriminate.
  - reflexivity.
Defined.

(** C10 with compression value 7 and a request that held two bytes. *)
Lemma C10_witness :
  decompressRequest (buffer_of (letters 3)) 0 10 7 (activeSpan traced)
    (world_of [])
  = Val ([], None) (add_log (world_of []) (probe_log (buffer_of (letters 3))))
  /\ ParseProtoReader traced (buffer_of (letters 3)) 0 10
       (mkBlob (letters 2)) 7 (world_of [])
     = Val (mkBlob [], None)
           (add_log (world_of [])
              (start_log traced ++ probe_log (buffer_of (letters 3))
               ++ unmarshal_log (activeSpan traced) [])).
Proof.
  apply (C10_unknown_compression_is_not_rejected traced
           (buffer_of (letters 3)) 0 10 (mkBlob (letters 2)) (mkBlob []) 7
           (world_of [])).
  - discriminate.
  - discriminate.
  - lia.
  - exact I.
  - vm_compute. discriminate.
  - reflexivity.
Defined.

(** * Further properties of the package *)

(** ** Reading, continued *)

Lemma stream_len_nonneg (s : stream) : 0 <= stream_len s.
Proof.
  induction s as [|[d e] rest IH]; cbn; [lia|].
  pose proof (len_nonneg d). lia.
Qed.

(** A run of [ReadFrom] only removes bytes from the front of the script, and
    no more of them than the limited reader has left. *)
Ltac close_consumes :=
  cbn [source log stream_len] in *;
  repeat match goal with H : _ /\ _ |- _ => destruct H end;
  repeat split; try assumption; try reflexivity; try lia.

Lemma ReadFrom_loop_consumes (fuel : nat) :
  forall (s : stream) (b : Buffer) (l : LimitedReader) (rd : nat)
         (lg : list Event) (r : Buffer * option error) (w' : World),
    ReadFrom_loop fuel b l (mkWorld s rd lg) = Val r w' ->
    stream_len s - stream_len (source w') <= Z.max 0 (N l)
    /\ stream_len (source w') <= stream_len s
    /\ log w' = lg.
Proof.
  induction fuel as [|fuel IH]; intros s b l rd lg r w' H.
  - discriminate.
  - pose proof (stream_len_nonneg s) as Hs.
    cbn [ReadFrom_loop] in H.
    pose proof (Buffer_grow_room b) as Hroom.
    set (b1 := Buffer_grow b MinRead) in *.
    unfold bind, LimitedReader_Read in H.
    destruct (N l <=? 0) eqn:EN.
    + apply Z.leb_le in EN. cbn in H. injection H as _ <-. close_consumes.
    + apply Z.leb_gt in EN. unfold bind in H.
      set (p := if cap b1 - len (Bytes b1) >? N l then N l
                else cap b1 - len (Bytes b1)) in *.
      assert (Hp : 0 < p <= N l).
      { subst p. unfold MinRead in Hroom.
        destruct (cap b1 - len (Bytes b1) >? N l) eqn:E; [lia|].
        rewrite Z.gtb_ltb in E. apply Z.ltb_ge in E. lia. }
      unfold source_Read in H. cbn [source reads log] in H.
      destruct s as [|[d e] rest].
      * cbn in H. injection H as _ <-. close_consumes.
      * pose proof (len_nonneg d) as Hd.
        pose proof (stream_len_nonneg rest) as Hrest.
        destruct (len d <=? p) eqn:Ed.
        -- apply Z.leb_le in Ed. cbn [ret] in H.
           destruct e as [[|msg]|].
           ++ cbn in H. injection H as _ <-. close_consumes.
           ++ cbn in H. injection H as _ <-. close_consumes.
           ++ apply IH in H. cbn [N] in H. cbn [stream_len]. close_consumes.
        -- apply Z.leb_gt in Ed. cbn [ret] in H.
           assert (Hlen : len (firstn (Z.to_nat p) d) = p)
             by (rewrite len_firstn; lia).
           rewrite Hlen in H. apply IH in H. cbn [N stream_len] in H.
           rewrite len_skipn in H by lia. cbn [stream_len]. close_consumes.
Qed.

Lemma Buffer_ReadFrom_consumes (b : Buffer) (l : LimitedReader) (w w' : World)
    (r : Buffer * option error) :
  Buffer_ReadFrom b l w = Val r w' ->
  stream_len (source w) - stream_len (source w') <= Z.max 0 (N l)
  /\ stream_len (source w') <= stream_len (source w)
  /\ log w' = log w.
Proof.
  unfold Buffer_ReadFrom. destruct w as [s rd lg]. cbn [source log].
  apply ReadFrom_loop_consumes.
Qed.

(** The bytes gone between a script and a remainder of it are the first
    bytes of the script. *)
Lemma remainder_taken (s s' : stream) :
  remainder s s' ->
  exists taken,
    stream_bytes s = taken ++ stream_bytes s'
    /\ len taken = stream_len s - stream_len s'.
Proof.
  induction 1 as [s|d e rest s' _ IH|k d e rest s' _ IH].
  - exists []. split; [reflexivity|]. change (len (@nil byte)) with 0. lia.
  - destruct IH as (taken & Hb & Hl). exists (d ++ taken). split.
    + cbn [stream_bytes]. now rewrite Hb, app_assoc.
    + rewrite len_app. cbn [stream_len]. lia.
  - destruct IH as (taken & Hb & Hl). exists (firstn k d ++ taken). split.
    + cbn [stream_bytes] in *.
      rewrite <- (firstn_skipn k d) at 1.
      rewrite <- !app_assoc. now rewrite <- Hb.
    + rewrite len_app. cbn [stream_len] in *.
      assert (Hd : len d = len (firstn k d) + len (skipn k d))
        by (now rewrite <- len_app, firstn_skipn).
      lia.
Qed.

(** A run of [ReadFrom] leaves a remainder of the script. *)
Lemma ReadFrom_loop_remainder (fuel : nat) :
  forall (s : stream) (b : Buffer) (l : LimitedReader) (rd : nat)
         (lg : list Event) (r : Buffer * option error) (w' : World),
    ReadFrom_loop fuel b l (mkWorld s rd lg) = Val r w' ->
    remainder s (source w').
Proof.
  induction fuel as [|fuel IH]; intros s b l rd lg r w' H.
  - discriminate.
  - cbn [ReadFrom_loop] in H.
    set (b1 := Buffer_grow b MinRead) in *.
    unfold bind, LimitedReader_Read in H.
    destruct (N l <=? 0).
    + cbn in H. injection H as _ <-. apply remainder_here.
    + unfold bind in H.
      set (p := if cap b1 - len (Bytes b1) >? N l then N l
                else cap b1 - len (Bytes b1)) in *.
      unfold source_Read in H. cbn [source reads log] in H.
      destruct s as [|[d e] rest].
      * cbn in H. injection H as _ <-. apply remainder_here.
      * destruct (len d <=? p).
        -- cbn [ret] in H. apply remainder_chunk.
           destruct e as [[|msg]|].
           ++ cbn in H. injection H as _ <-. apply remainder_here.
           ++ cbn in H. injection H as _ <-. apply remainder_here.
           ++ now apply IH in H.
        -- cbn [ret] in H. apply (remainder_bytes (Z.to_nat p)).
           now apply IH in H.
Qed.

Lemma Buffer_ReadFrom_remainder (b : Buffer) (l : LimitedReader) (w w' : World)
    (r : Buffer * option error) :
  Buffer_ReadFrom b l w = Val r w' -> remainder (source w) (source w').
Proof.
  unfold Buffer_ReadFrom. destruct w as [s rd lg]. cbn [source].
  apply ReadFrom_loop_remainder.
Qed.

(** The error [drain] returns is one the script reports, and never
    [io.EOF]. *)
Lemma drain_error_in_script (n : Z) (s : stream) (e : error) :
  snd (drain n s) = Some e -> script_reports s e /\ e <> io_EOF.
Proof.
  revert n. induction s as [|[d o] rest IH]; intros n H; cbn in H.
  - discriminate.
  - destruct (n <=? 0); [discriminate|].
    destruct (len d <=? n); [|discriminate].
    destruct o as [[|msg]|].
    + discriminate.
    + cbn in H. injection H as <-. split; [|discriminate].
      exists d. now left.
    + destruct (drain (n - len d) rest) as [bs e'] eqn:E. cbn in H.
      destruct (IH (n - len d)) as [[d' Hin] Hne]; [now rewrite E|].
      split; [|exact Hne]. exists d'. now right.
Qed.

(** An error that arrives before the limit is reached is what the limited
    read returns, with all the bytes before it. *)
Lemma drain_failing_within (n : Z) (s : stream) (bs : bytes) (e : error) :
  failing s = Some (bs, e) -> len bs < n -> drain n s = (bs, Some e).
Proof.
  revert n bs. induction s as [|[d o] rest IH]; intros n bs H Hn; cbn in H.
  - discriminate.
  - cbn [drain]. pose proof (len_nonneg d) as Hd.
    pose proof (len_nonneg bs) as Hbs.
    replace (n <=? 0) with false by (symmetry; apply Z.leb_gt; lia).
    destruct o as [[|msg]|].
    + discriminate.
    + injection H as <- <-.
      now replace (len d <=? n) with true by (symmetry; apply Z.leb_le; lia).
    + destruct (failing rest) as [[bs' e']|] eqn:Hrest; [|discriminate].
      cbn in H. injection H as <- <-. rewrite len_app in Hn.
      pose proof (len_nonneg bs') as Hbs'.
      replace (len d <=? n) with true by (symmetry; apply Z.leb_le; lia).
      now rewrite (IH (n - len d) bs' eq_refl) by lia.
Qed.

(** An error that lies beyond the limit is never seen: the limited read
    returns the first [n] bytes and a nil error. *)
Lemma drain_failing_beyond (n : Z) (s : stream) (bs : bytes) (e : error) :
  failing s = Some (bs, e) -> n < len bs ->
  drain n s = (firstn (Z.to_nat n) bs, None).
Proof.
  revert n bs. induction s as [|[d o] rest IH]; intros n bs H Hn; cbn in H.
  - discriminate.
  - cbn [drain]. pose proof (len_nonneg d) as Hd.
    destruct (n <=? 0) eqn:En.
    + apply Z.leb_le in En. now replace (Z.to_nat n) with 0%nat by lia.
    + apply Z.leb_gt in En.
      destruct o as [[|msg]|].
      * discriminate.
      * injection H as <- <-.
        now replace (len d <=? n) with false by (symmetry; apply Z.leb_gt; lia).
      * destruct (failing rest) as [[bs' e']|] eqn:Hrest; [|discriminate].
        cbn in H. injection H as <- <-. rewrite len_app in Hn.
        destruct (len d <=? n) eqn:Ed.
        -- apply Z.leb_le in Ed.
           rewrite (IH (n - len d) bs' eq_refl) by lia.
           assert (Hd' : Z.to_nat (len d) = List.length d)
             by (unfold len; lia).
           replace (Z.to_nat n)
             with (Z.to_nat (len d) + Z.to_nat (n - len d))%nat by lia.
           rewrite firstn_plus, Hd'.
           rewrite firstn_app, Nat.sub_diag, firstn_O, app_nil_r, firstn_all.
           now rewrite skipn_app, skipn_all, Nat.sub_diag, skipn_O.
        -- apply Z.leb_gt in Ed. rewrite firstn_app.
           replace (Z.to_nat n - List.length d)%nat with 0%nat
             by (unfold len in Ed; lia).
           now rewrite firstn_O, app_nil_r.
Qed.

Section FurtherFacts.

Context {snappy : Snappy} {T : Type} {message : Message T}.

(** ** The pre-allocation *)

Lemma Buffer_Grow_grows (expectedSize : Z) (w : World) :
  grows expectedSize ->
  exists b,
    (if expectedSize >? 0
     then Buffer_Grow Buffer_zero (wrap64 (expectedSize + MinRead))
     else ret Buffer_zero) w = Val b w
    /\ Bytes b = [].
Proof.
  intros H. destruct (expectedSize >? 0) eqn:E.
  - apply Z.gtb_lt in E. destruct H as [H|H]; [lia|].
    unfold Buffer_Grow.
    replace (wrap64 (expectedSize + MinRead) <? 0) with false
      by (symmetry; apply Z.ltb_ge; lia).
    eexists. split; [reflexivity|]. apply Buffer_grow_Bytes.
  - exists Buffer_zero. split; reflexivity.
Qed.

Lemma Buffer_Grow_panics (expectedSize : Z) (w : World) :
  ~ grows expectedSize ->
  (if expectedSize >? 0
   then Buffer_Grow Buffer_zero (wrap64 (expectedSize + MinRead))
   else ret Buffer_zero) w
  = Panic "bytes.Buffer.Grow: negative count" w.
Proof.
  intros H. unfold grows in H.
  replace (expectedSize >? 0) with true by (symmetry; apply Z.gtb_lt; lia).
  unfold Buffer_Grow.
  now replace (wrap64 (expectedSize + MinRead) <? 0) with true
    by (symmetry; apply Z.ltb_lt; lia).
Qed.

Lemma grows_dec (expectedSize : Z) : {grows expectedSize} + {~ grows expectedSize}.
Proof.
  unfold grows.
  destruct (Z_le_gt_dec expectedSize 0); [left; lia|].
  destruct (Z_le_gt_dec 0 (wrap64 (expectedSize + MinRead)));
    [left; lia | right; lia].
Qed.

(** For a hint that is a Go [int], the pre-allocation panics exactly when
    the hint is within [bytes.MinRead] of [max_int]. *)
Lemma grows_int (expectedSize : Z) :
  is_int expectedSize ->
  (grows expectedSize <-> expectedSize <= max_int - MinRead).
Proof.
  unfold is_int, grows, min_int, max_int, MinRead. intros Hi. split.
  - intros [H|H]; [lia|].
    destruct (Z_le_gt_dec expectedSize (2 ^ 63 - 1 - 512)) as [|Hbig];
      [assumption|].
    exfalso. unfold wrap64 in H.
    replace (expectedSize + 512 + 2 ^ 63)
      with ((expectedSize + 512 - 2 ^ 63) + 1 * 2 ^ 64) in H by lia.
    rewrite Z.mod_add in H by lia. rewrite Z.mod_small in H; lia.
  - intros H. destruct (Z_le_gt_dec expectedSize 0); [now left|right].
    rewrite wrap64_in_range; unfold is_int, min_int, max_int; lia.
Qed.

(** ** decompressFromBuffer, as a function of the bytes *)

(** The values [decompressFromBuffer] returns are fixed by the buffer's
    bytes, [maxSize] and the compression; the span and the world only change
    what is logged, and the source is left alone. *)
Lemma decompressFromBuffer_value (raw : bytes) (maxSize : Z)
    (c : CompressionType) :
  exists v,
    (forall b sp w, Bytes b = raw ->
       exists evs, decompressFromBuffer b maxSize c sp w = Val v (add_log w evs))
    /\ (forall e, snd v = Some e ->
          fst v = []
          /\ (e = sizeExceeded (len raw) maxSize
              \/ (exists size, e = sizeExceeded size maxSize
                               /\ snappy_DecodedLen raw = (size, None))
              \/ (exists x, snappy_DecodedLen raw = (x, Some e))
              \/ (exists x, snappy_Decode raw = (x, Some e))))
    /\ (snd v = None ->
          len raw <= maxSize
          /\ (c = NoCompression -> fst v = raw)
          /\ (c = RawSnappy ->
              exists size, snappy_DecodedLen raw = (size, None)
                           /\ size <= maxSize
                           /\ snappy_Decode raw = (fst v, None))
          /\ (c <> NoCompression -> c <> RawSnappy -> fst v = [])).
Proof.
  destruct (Z_gt_le_dec (len raw) maxSize) as [Hover|Hin].
  { exists ([], Some (sizeExceeded (len raw) maxSize)). split; [|split].
    - intros b sp w <-. exists []. rewrite add_log_nil.
      now apply decompressFromBuffer_over.
    - cbn. intros e [= <-]. auto.
    - discriminate. }
  destruct (Z.eq_dec c NoCompression) as [->|Hc0].
  { exists (raw, None). split; [|split].
    - intros b sp w <-. exists []. rewrite add_log_nil.
      now apply decompressFromBuffer_plain.
    - discriminate.
    - cbn. intros _. repeat split; auto; try discriminate. congruence. }
  destruct (Z.eq_dec c RawSnappy) as [->|Hc1].
  2:{ exists ([], None). split; [|split].
      - intros b sp w <-. exists []. rewrite add_log_nil.
        now apply decompressFromBuffer_unknown.
      - discriminate.
      - cbn. intros _. repeat split; auto; congruence. }
  destruct (snappy_DecodedLen raw) as [size [e|]] eqn:Hd.
  { exists ([], Some e). split; [|split].
    - intros b sp w <-. eexists.
      eapply decompressFromBuffer_header_error; eauto.
    - cbn. intros e' [= <-]. split; [reflexivity|]. right. right. left. eauto.
    - discriminate. }
  destruct (Z_gt_le_dec size maxSize) as [Hs|Hs].
  { exists ([], Some (sizeExceeded size maxSize)). split; [|split].
    - intros b sp w <-. eexists.
      eapply decompressFromBuffer_header_over; eauto.
    - cbn. intros e' [= <-]. split; [reflexivity|]. right. left. eauto.
    - discriminate. }
  destruct (snappy_Decode raw) as [body [e|]] eqn:Hdec.
  - exists ([], Some e). split; [|split].
    + intros b sp w <-. eexists.
      rewrite (decompressFromBuffer_decode b maxSize size body (Some e));
        eauto.
    + cbn. intros e' [= <-]. split; [reflexivity|]. right. right. right. eauto.
    + discriminate.
  - exists (body, None). split; [|split].
    + intros b sp w <-. eexists.
      rewrite (decompressFromBuffer_decode b maxSize size body None); eauto.
    + discriminate.
    + cbn. intros _. repeat split; auto; try discriminate; try congruence.
      intros _. eauto.
Qed.

(** ** decompressFromReader, for every hint that does not panic *)

Lemma decompressFromReader_run (expectedSize maxSize : Z)
    (c : CompressionType) (sp : option Span) (w : World) :
  grows expectedSize ->
  exists b w1,
    Bytes b = fst (drain (wrap64 (maxSize + 1)) (source w))
    /\ log w1 = log w
    /\ stream_len (source w) - stream_len (source w1)
       <= Z.max 0 (wrap64 (maxSize + 1))
    /\ stream_len (source w1) <= stream_len (source w)
    /\ decompressFromReader expectedSize maxSize c sp w
       = if c =? NoCompression then
           Val (drain (wrap64 (maxSize + 1)) (source w)) w1
         else if c =? RawSnappy then
           match snd (drain (wrap64 (maxSize + 1)) (source w)) with
           | Some e => Val ([], Some e) w1
           | None => decompressFromBuffer b maxSize RawSnappy sp w1
           end
         else Val ([], None) w.
Proof.
  intros Hg.
  destruct (Buffer_Grow_grows expectedSize w Hg) as (b0 & Hgrow & Hb0).
  destruct (Buffer_ReadFrom_drain b0 (io_LimitReader (wrap64 (maxSize + 1))) w)
    as (cp & s' & rd' & Hr & _).
  pose proof (Buffer_ReadFrom_consumes _ _ _ _ _ Hr) as (Hc1 & Hc2 & _).
  cbn [N io_LimitReader source] in Hr, Hc1, Hc2.
  rewrite Hb0 in Hr. cbn [app] in Hr.
  exists (mkBuffer (fst (drain (wrap64 (maxSize + 1)) (source w))) cp),
    (mkWorld s' rd' (log w)).
  repeat split; try assumption.
  unfold decompressFromReader, bind at 1. rewrite Hgrow.
  destruct (c =? NoCompression).
  - unfold bind. rewrite Hr. cbn.
    now destruct (drain (wrap64 (maxSize + 1)) (source w)).
  - destruct (c =? RawSnappy); [|reflexivity].
    unfold bind. rewrite Hr.
    now destruct (snd (drain (wrap64 (maxSize + 1)) (source w))).
Qed.

Lemma decompressFromReader_panics (expectedSize maxSize : Z)
    (c : CompressionType) (sp : option Span) (w : World) :
  ~ grows expectedSize ->
  decompressFromReader expectedSize maxSize c sp w
  = Panic "bytes.Buffer.Grow: negative count" w.
Proof.
  intros Hg. unfold decompressFromReader, bind at 1.
  now rewrite (Buffer_Grow_panics expectedSize w Hg).
Qed.

End FurtherFacts.

Section FurtherRequestFacts.

Context {snappy : Snappy} {T : Type} {message : Message T}.

(** [ParseProtoReader] in terms of the statements of [decompressRequest]:
    it returns, panics or hangs as they do, and touches neither the source
    nor any collaborator after them. *)
Lemma ParseProtoReader_run (ctx : Context) (reader : Reader)
    (expectedSize maxSize : Z) (req : T) (c : CompressionType) (w : World) :
  match decompressRequest_body reader expectedSize maxSize c (activeSpan ctx)
          (add_log w (start_log ctx)) with
  | Val r w1 =>
      exists evs,
        ParseProtoReader ctx reader expectedSize maxSize req c w
        = Val (finish maxSize req r) (add_log w1 evs)
        /\ decode_calls evs = 0%nat
  | Panic msg w1 =>
      ParseProtoReader ctx reader expectedSize maxSize req c w = Panic msg w1
  | Diverged =>
      ParseProtoReader ctx reader expectedSize maxSize req c w = Diverged
  end.
Proof.
  destruct (decompressRequest_body reader expectedSize maxSize c
              (activeSpan ctx) (add_log w (start_log ctx)))
    as [r w1|msg w1|] eqn:E.
  - rewrite (ParseProtoReader_of_body _ _ _ _ _ _ _ _ _ E). unfold finish.
    destruct (decompressRequest_deferred maxSize r) as [body [err|]].
    + exists []. now rewrite add_log_nil.
    + eexists. split; [reflexivity|]. apply decode_calls_span_log.
  - now apply ParseProtoReader_panics.
  - unfold ParseProtoReader, decompressRequest, opentracing_SpanFromContext,
      bind.
    rewrite !logFields_run. unfold start_log in E. now rewrite E.
Qed.

(** The statements of [decompressRequest], case by case. *)
Lemma decompressRequest_body_run (reader : Reader) (expectedSize maxSize : Z)
    (c : CompressionType) (sp : option Span) (w : World) :
  decompressRequest_body reader expectedSize maxSize c sp w
  = if expectedSize >? maxSize then
      Val ([], Some (sizeExceeded expectedSize maxSize)) w
    else
      match reader with
      | BufferReader b =>
          decompressFromBuffer b maxSize c sp (add_log w [EvBytesBuffer])
      | PlainReader => decompressFromReader expectedSize maxSize c sp w
      end.
Proof.
  unfold decompressRequest_body.
  destruct (expectedSize >? maxSize); [reflexivity|].
  now destruct reader.
Qed.

(** The values the statements of [decompressRequest] return depend on the
    source's script, not on the span nor on what was logged before. *)
Lemma decompressRequest_body_outcome (reader : Reader)
    (expectedSize maxSize : Z) (c : CompressionType) (sp sp' : option Span)
    (w w' : World) :
  source w = source w' ->
  outcome (decompressRequest_body reader expectedSize maxSize c sp w)
  = outcome (decompressRequest_body reader expectedSize maxSize c sp' w').
Proof.
  intros Hsrc. rewrite !decompressRequest_body_run.
  destruct (expectedSize >? maxSize); [reflexivity|].
  destruct reader as [|b].
  - destruct (grows_dec expectedSize) as [Hg|Hg].
    + destruct (decompressFromReader_run expectedSize maxSize c sp w Hg)
        as (b1 & w1 & Hb1 & _ & _ & _ & ->).
      destruct (decompressFromReader_run expectedSize maxSize c sp' w' Hg)
        as (b2 & w2 & Hb2 & _ & _ & _ & ->).
      rewrite <- Hsrc in *.
      destruct (c =? NoCompression); [reflexivity|].
      destruct (c =? RawSnappy); [|reflexivity].
      destruct (snd (drain (wrap64 (maxSize + 1)) (source w)));
        [reflexivity|].
      destruct (decompressFromBuffer_value (Bytes b1) maxSize RawSnappy)
        as (v & Hv & _).
      destruct (Hv b1 sp w1 eq_refl) as (evs1 & ->).
      destruct (Hv b2 sp' w2) as (evs2 & ->); [congruence|reflexivity].
    + now rewrite !decompressFromReader_panics by exact Hg.
  - destruct (decompressFromBuffer_value (Bytes b) maxSize c) as (v & Hv & _).
    destruct (Hv b sp (add_log w [EvBytesBuffer]) eq_refl) as (evs1 & ->).
    destruct (Hv b sp' (add_log w' [EvBytesBuffer]) eq_refl) as (evs2 & ->).
    reflexivity.
Qed.

Lemma ParseProtoReader_outcome_of_body (ctx : Context) (reader : Reader)
    (expectedSize maxSize : Z) (req : T) (c : CompressionType) (w : World) :
  outcome (ParseProtoReader ctx reader expectedSize maxSize req c w)
  = match outcome (decompressRequest_body reader expectedSize maxSize c
                     (activeSpan ctx) (add_log w (start_log ctx))) with
    | Returns r => Returns (finish maxSize req r)
    | Panics msg => Panics msg
    | Hangs => Hangs
    end.
Proof.
  pose proof (ParseProtoReader_run ctx reader expectedSize maxSize req c w)
    as H.
  destruct (decompressRequest_body reader expectedSize maxSize c
              (activeSpan ctx) (add_log w (start_log ctx))) as [r w1|msg w1|].
  - destruct H as (evs & -> & _). reflexivity.
  - now rewrite H.
  - now rewrite H.
Qed.

(** X4. Tracing is observational: whether the context carries a span or
    not, [ParseProtoReader] returns the same request and the same error, or
    panics alike. *)
Theorem tracing_is_observational (ctx ctx' : Context) (reader : Reader)
    (expectedSize maxSize : Z) (req : T) (c : CompressionType) (w : World) :
  outcome (ParseProtoReader ctx reader expectedSize maxSize req c w)
  = outcome (ParseProtoReader ctx' reader expectedSize maxSize req c w).
Proof.
  rewrite !ParseProtoReader_outcome_of_body.
  now rewrite (decompressRequest_body_outcome reader expectedSize maxSize c
                 (activeSpan ctx) (activeSpan ctx')
                 (add_log w (start_log ctx)) (add_log w (start_log ctx'))).
Qed.

(** X1. A plain reader with a hint that passes the pre-read check and lies
    within [bytes.MinRead] of [max_int] makes [ParseProtoReader] panic,
    under every compression value and before the source is touched: the
    pre-allocation size [expectedSize + bytes.MinRead] wraps around to a
    negative number. *)
Theorem overflowing_hint_panics_in_Grow (ctx : Context) (expectedSize maxSize : Z)
    (req : T) (c : CompressionType) (w : World) :
  is_int expectedSize ->
  max_int - MinRead < expectedSize ->
  expectedSize <= maxSize ->
  ParseProtoReader ctx PlainReader expectedSize maxSize req c w
  = Panic "bytes.Buffer.Grow: negative count" (add_log w (start_log ctx)).
Proof.
  intros Hint Hbig He. apply ParseProtoReader_panics.
  rewrite decompressRequest_body_plain by exact He.
  apply decompressFromReader_panics.
  rewrite (grows_int _ Hint). lia.
Qed.

End FurtherRequestFacts.

Section FurtherClaims.

Context {snappy : Snappy} {T : Type} {message : Message T}.

(** The events [decompressFromBuffer] logs: [snappy.Decode] is called at
    most once, on the buffer's bytes, and only after the raw length and the
    length declared by the header were both found within [maxSize]. *)
Lemma decompressFromBuffer_events (b : Buffer) (maxSize : Z)
    (c : CompressionType) (sp : option Span) (w : World) :
  exists v evs,
    decompressFromBuffer b maxSize c sp w = Val v (add_log w evs)
    /\ (decode_calls evs <= 1)%nat
    /\ (forall raw, In (EvDecode raw) evs ->
          raw = Bytes b /\ c = RawSnappy /\ len raw <= maxSize
          /\ exists size, snappy_DecodedLen raw = (size, None)
                          /\ size <= maxSize).
Proof.
  assert (Hspan : forall fields tail raw,
            In (EvDecode raw) (span_log sp fields ++ tail) ->
            In (EvDecode raw) tail).
  { intros fields tail raw. destruct sp; cbn; [|auto].
    intros [H|H]; [discriminate|exact H]. }
  destruct (Z_gt_le_dec (len (Bytes b)) maxSize) as [Hover|Hin].
  { eexists _, []. rewrite add_log_nil. split; [|split].
    - now apply decompressFromBuffer_over.
    - cbn. lia.
    - intros raw []. }
  destruct (Z.eq_dec c NoCompression) as [->|Hc0].
  { eexists _, []. rewrite add_log_nil. split; [|split].
    - now apply decompressFromBuffer_plain.
    - cbn. lia.
    - intros raw []. }
  destruct (Z.eq_dec c RawSnappy) as [->|Hc1].
  2:{ eexists _, []. rewrite add_log_nil. split; [|split].
      - now apply decompressFromBuffer_unknown.
      - cbn. lia.
      - intros raw []. }
  destruct (snappy_DecodedLen (Bytes b)) as [size [e|]] eqn:Hd.
  { eexists _, _. split; [|split].
    - eapply decompressFromBuffer_header_error; eauto.
    - unfold decompress_log.
      rewrite decode_calls_app, decode_calls_span_log. cbn. lia.
    - intros raw H. apply Hspan in H. destruct H as [H|[]]. discriminate. }
  destruct (Z_gt_le_dec size maxSize) as [Hs|Hs].
  { eexists _, _. split; [|split].
    - eapply decompressFromBuffer_header_over; eauto.
    - unfold decompress_log.
      rewrite decode_calls_app, decode_calls_span_log. cbn. lia.
    - intros raw H. apply Hspan in H. destruct H as [H|[]]. discriminate. }
  destruct (snappy_Decode (Bytes b)) as [body err] eqn:Hdec.
  eexists _, _. split; [|split].
  - eapply decompressFromBuffer_decode; eauto.
  - unfold decompress_log.
    rewrite decode_calls_app, decode_calls_span_log. cbn. lia.
  - intros raw H. apply Hspan in H.
    destruct H as [H|[H|[]]]; [discriminate|].
    injection H as <-. eauto 6.
Qed.

(** X3. The zero-copy path never reads: when a reader exposes a buffer,
    a [ParseProtoReader] that returns has left the source's script and the
    count of [Read] calls as they were, whatever the compression value and
    whether it succeeded or not. *)
Theorem buffer_reader_is_never_read (ctx : Context) (b : Buffer)
    (expectedSize maxSize : Z) (req : T) (c : CompressionType) (w w' : World)
    (r : T * option error) :
  ParseProtoReader ctx (BufferReader b) expectedSize maxSize req c w
  = Val r w' ->
  source w' = source w /\ reads w' = reads w.
Proof.
  intros Hrun.
  pose proof (ParseProtoReader_run ctx (BufferReader b) expectedSize maxSize
                req c w) as H.
  rewrite decompressRequest_body_run in H.
  destruct (expectedSize >? maxSize).
  - destruct H as (evs & Heq & _). rewrite Heq in Hrun.
    injection Hrun as _ <-. split; reflexivity.
  - destruct (decompressFromBuffer_events b maxSize c (activeSpan ctx)
                (add_log (add_log w (start_log ctx)) [EvBytesBuffer]))
      as (v & evs & Hv & _).
    rewrite Hv in H. destruct H as (evs' & Heq & _). rewrite Heq in Hrun.
    injection Hrun as _ <-. split; reflexivity.
Qed.

(** What a limited read does to the source: the script left is a
    remainder of the script before, shorter by no more than the limit. *)
Lemma decompressFromReader_source (expectedSize maxSize : Z)
    (c : CompressionType) (sp : option Span) (w w' : World)
    (r : bytes * option error) :
  decompressFromReader expectedSize maxSize c sp w = Val r w' ->
  remainder (source w) (source w')
  /\ stream_len (source w) - stream_len (source w')
     <= Z.max 0 (wrap64 (maxSize + 1)).
Proof.
  intros H.
  assert (Hsame : w' = w ->
            remainder (source w) (source w')
            /\ stream_len (source w) - stream_len (source w')
               <= Z.max 0 (wrap64 (maxSize + 1))).
  { intros ->. split; [apply remainder_here|lia]. }
  destruct (grows_dec expectedSize) as [Hg|Hg].
  2:{ rewrite decompressFromReader_panics in H by exact Hg. discriminate. }
  destruct (Buffer_Grow_grows expectedSize w Hg) as (b0 & Hgrow & _).
  unfold decompressFromReader, bind at 1 in H. rewrite Hgrow in H.
  destruct (Buffer_ReadFrom b0 (io_LimitReader (wrap64 (maxSize + 1))) w)
    as [[b1 e1] w1|msg w1|] eqn:Hr.
  - pose proof (Buffer_ReadFrom_consumes _ _ _ _ _ Hr) as (Hc1 & _ & _).
    pose proof (Buffer_ReadFrom_remainder _ _ _ _ _ Hr) as Hrem.
    cbn [N io_LimitReader] in Hc1.
    destruct (c =? NoCompression).
    { unfold bind in H. rewrite Hr in H. cbn in H.
      injection H as _ <-. split; assumption. }
    destruct (c =? RawSnappy).
    2:{ injection H as _ <-. now apply Hsame. }
    unfold bind in H. rewrite Hr in H. destruct e1 as [e1|].
    { cbn in H. injection H as _ <-. split; assumption. }
    destruct (decompressFromBuffer_events b1 maxSize RawSnappy sp w1)
      as (v & evs & Hv & _).
    rewrite Hv in H. injection H as _ <-. cbn [source add_log].
    split; assumption.
  - destruct (c =? NoCompression).
    { unfold bind in H. rewrite Hr in H. discriminate. }
    destruct (c =? RawSnappy).
    2:{ injection H as _ <-. now apply Hsame. }
    unfold bind in H. rewrite Hr in H. discriminate.
  - destruct (c =? NoCompression).
    { unfold bind in H. rewrite Hr in H. discriminate. }
    destruct (c =? RawSnappy).
    2:{ injection H as _ <-. now apply Hsame. }
    unfold bind in H. rewrite Hr in H. discriminate.
Qed.

(** X2. The incremental path takes bytes off the front of the source only,
    and never more than the limit [int64(maxSize)+1] allows: the script
    left is a remainder of the script before, the bytes of the script
    before are some taken bytes followed by the bytes left, and the taken
    bytes are at most one more than [maxSize]. *)
Theorem plain_reader_is_read_within_the_limit (ctx : Context)
    (expectedSize maxSize : Z) (req : T) (c : CompressionType) (w w' : World)
    (r : T * option error) :
  ParseProtoReader ctx PlainReader expectedSize maxSize req c w = Val r w' ->
  remainder (source w) (source w')
  /\ exists taken,
       stream_bytes (source w) = taken ++ stream_bytes (source w')
       /\ len taken <= Z.max 0 (wrap64 (maxSize + 1)).
Proof.
  intros Hrun.
  pose proof (ParseProtoReader_run ctx PlainReader expectedSize maxSize
                req c w) as H.
  rewrite decompressRequest_body_run in H.
  assert (Hsrc : remainder (source w) (source w')
                 /\ stream_len (source w) - stream_len (source w')
                    <= Z.max 0 (wrap64 (maxSize + 1))).
  { destruct (expectedSize >? maxSize).
    - destruct H as (evs & Heq & _). rewrite Heq in Hrun.
      injection Hrun as _ <-. cbn [source add_log].
      split; [apply remainder_here|lia].
    - destruct (decompressFromReader expectedSize maxSize c (activeSpan ctx)
                  (add_log w (start_log ctx))) as [r1 w1|msg w1|] eqn:Hfr.
      + destruct H as (evs & Heq & _). rewrite Heq in Hrun.
        injection Hrun as _ <-. cbn [source add_log].
        exact (decompressFromReader_source _ _ _ _ _ _ _ Hfr).
      + rewrite H in Hrun. discriminate.
      + rewrite H in Hrun. discriminate. }
  destruct Hsrc as (Hrem & Hlen). split; [exact Hrem|].
  destruct (remainder_taken _ _ Hrem) as (taken & Hbytes & Htaken).
  exists taken. split; [exact Hbytes|lia].
Qed.

(** The events of the statements of [decompressRequest]. *)
Lemma decompressRequest_body_events (reader : Reader)
    (expectedSize maxSize : Z) (c : CompressionType) (sp : option Span)
    (w w1 : World) (r : bytes * option error) :
  decompressRequest_body reader expectedSize maxSize c sp w = Val r w1 ->
  exists evs,
    log w1 = log w ++ evs
    /\ (decode_calls evs <= 1)%nat
    /\ (forall raw, In (EvDecode raw) evs ->
          c = RawSnappy /\ len raw <= maxSize
          /\ exists size, snappy_DecodedLen raw = (size, None)
                          /\ size <= maxSize).
Proof.
  rewrite decompressRequest_body_run. intros H.
  assert (Hnone : forall w2, log w2 = log w -> w1 = w2 ->
            exists evs,
              log w1 = log w ++ evs /\ (decode_calls evs <= 1)%nat
              /\ (forall raw, In (EvDecode raw) evs ->
                    c = RawSnappy /\ len raw <= maxSize
                    /\ exists size, snappy_DecodedLen raw = (size, None)
                                    /\ size <= maxSize)).
  { intros w2 Hl ->. exists []. rewrite app_nil_r. split; [exact Hl|].
    split; [cbn; lia|]. intros raw []. }
  assert (Hbuf : forall b w2 evs0, log w2 = log w ++ evs0 ->
            decode_calls evs0 = 0%nat ->
            (forall raw, ~ In (EvDecode raw) evs0) ->
            decompressFromBuffer b maxSize c sp w2 = Val r w1 ->
            exists evs,
              log w1 = log w ++ evs /\ (decode_calls evs <= 1)%nat
              /\ (forall raw, In (EvDecode raw) evs ->
                    c = RawSnappy /\ len raw <= maxSize
                    /\ exists size, snappy_DecodedLen raw = (size, None)
                                    /\ size <= maxSize)).
  { intros b w2 evs0 Hl H0 Hno Hrun.
    destruct (decompressFromBuffer_events b maxSize c sp w2)
      as (v & evs & Hv & Hn & Hin).
    rewrite Hv in Hrun. injection Hrun as _ <-.
    exists (evs0 ++ evs). cbn [log add_log]. rewrite Hl, app_assoc.
    split; [reflexivity|]. split.
    - rewrite decode_calls_app. lia.
    - intros raw Hraw. apply in_app_or in Hraw.
      destruct Hraw as [Hraw|Hraw]; [now apply Hno in Hraw|].
      destruct (Hin raw Hraw) as (_ & ? & ? & ?). auto. }
  destruct (expectedSize >? maxSize).
  { injection H as _ <-. now apply (Hnone w). }
  destruct reader as [|b].
  - destruct (grows_dec expectedSize) as [Hg|Hg].
    2:{ rewrite decompressFromReader_panics in H by exact Hg. discriminate. }
    destruct (decompressFromReader_run expectedSize maxSize c sp w Hg)
      as (b1 & w2 & _ & Hl & _ & _ & Hfr).
    rewrite Hfr in H.
    destruct (c =? NoCompression) eqn:Ec0.
    { injection H as _ <-. now apply (Hnone w2). }
    destruct (c =? RawSnappy) eqn:Ec1.
    2:{ injection H as _ <-. now apply (Hnone w). }
    apply Z.eqb_eq in Ec1. subst c.
    destruct (snd (drain (wrap64 (maxSize + 1)) (source w))).
    { injection H as _ <-. now apply (Hnone w2). }
    apply (Hbuf b1 w2 []); auto. now rewrite app_nil_r.
  - apply (Hbuf b (add_log w [EvBytesBuffer]) [EvBytesBuffer]); auto.
    intros raw [Hraw|[]]. discriminate.
Qed.

(** X13. Whatever the input, [snappy.Decode] is called at most once per
    parse, only under [RawSnappy], and only on bytes whose length and whose
    declared decoded length are both within [maxSize]: a block that claims
    to expand beyond the limit is never decompressed. *)
Theorem Decode_only_within_maxSize (ctx : Context) (reader : Reader)
    (expectedSize maxSize : Z) (req : T) (c : CompressionType) (w w' : World)
    (r : T * option error) :
  ParseProtoReader ctx reader expectedSize maxSize req c w = Val r w' ->
  exists evs,
    log w' = log w ++ evs
    /\ (decode_calls evs <= 1)%nat
    /\ (forall raw, In (EvDecode raw) evs ->
          c = RawSnappy /\ len raw <= maxSize
          /\ exists size, snappy_DecodedLen raw = (size, None)
                          /\ size <= maxSize).
Proof.
  intros Hrun.
  pose proof (ParseProtoReader_run ctx reader expectedSize maxSize req c w)
    as H.
  destruct (decompressRequest_body reader expectedSize maxSize c
              (activeSpan ctx) (add_log w (start_log ctx)))
    as [r1 w1|msg w1|] eqn:Hbody.
  2:{ rewrite H in Hrun. discriminate. }
  2:{ rewrite H in Hrun. discriminate. }
  destruct H as (evs2 & Heq & Hno2). rewrite Heq in Hrun.
  injection Hrun as _ <-.
  destruct (decompressRequest_body_events _ _ _ _ _ _ _ _ Hbody)
    as (evs1 & Hl & Hn & Hin).
  exists (start_log ctx ++ evs1 ++ evs2).
  cbn [log add_log] in *. rewrite Hl, <- !app_assoc.
  split; [reflexivity|]. split.
  - unfold start_log.
    rewrite !decode_calls_app, decode_calls_span_log. lia.
  - intros raw Hraw. apply in_app_or in Hraw. destruct Hraw as [Hraw|Hraw].
    { unfold start_log, span_log in Hraw.
      destruct (activeSpan ctx); cbn in Hraw; [|contradiction].
      destruct Hraw as [Hraw|[]]. discriminate. }
    apply in_app_or in Hraw. destruct Hraw as [Hraw|Hraw]; [auto|].
    exfalso. clear - Hraw Hno2.
    induction evs2 as [|ev evs2 IH]; [contradiction|].
    destruct Hraw as [->|Hraw]; [discriminate|].
    destruct ev; cbn in Hno2; try discriminate; auto.
Qed.

End FurtherClaims.

Section ErrorPaths.

Context {snappy : Snappy} {T : Type} {message : Message T}.

Lemma wrap64_limit (maxSize : Z) :
  0 <= maxSize < max_int -> wrap64 (maxSize + 1) = maxSize + 1.
Proof.
  intros H. apply wrap64_in_range.
  unfold is_int, min_int, max_int in *. lia.
Qed.

(** X9. A read error that arrives before more than [maxSize] bytes were
    read is returned as it is, under either compression, and the request is
    not touched. *)
Theorem read_error_within_the_limit_is_returned (ctx : Context)
    (expectedSize maxSize : Z) (req : T) (c : CompressionType) (w : World)
    (bs : bytes) (cause : error) :
  c = NoCompression \/ c = RawSnappy ->
  expectedSize <= maxSize ->
  expectedSize <= max_int - MinRead ->
  maxSize < max_int ->
  failing (source w) = Some (bs, cause) ->
  len bs <= maxSize ->
  exists w',
    ParseProtoReader ctx PlainReader expectedSize maxSize req c w
    = Val (req, Some cause) w'.
Proof.
  intros Hc He Hh Hmax Hfail Hlen.
  pose proof (len_nonneg bs) as Hbs.
  set (w0 := add_log w (start_log ctx)).
  assert (Hdrain : drain (wrap64 (maxSize + 1)) (source w0) = (bs, Some cause)).
  { rewrite wrap64_limit by lia.
    apply drain_failing_within; [exact Hfail|lia]. }
  assert (Hrun : exists w1 body,
    decompressRequest_body PlainReader expectedSize maxSize c (activeSpan ctx)
      w0 = Val (body, Some cause) w1 /\ len body <= maxSize).
  { rewrite decompressRequest_body_plain by exact He.
    destruct Hc as [-> | ->].
    - destruct (decompressFromReader_NoCompression expectedSize maxSize
                  (activeSpan ctx) w0 Hh) as (w1 & -> & _).
      rewrite Hdrain. eauto.
    - destruct (decompressFromReader_RawSnappy expectedSize maxSize
                  (activeSpan ctx) w0 Hh) as (b & w1 & _ & _ & ->).
      rewrite Hdrain. cbn [snd]. exists w1, []. split; [reflexivity|].
      change (len (@nil byte)) with 0. lia. }
  destruct Hrun as (w1 & body & Hrun & Hbody). exists w1.
  rewrite (ParseProtoReader_of_body _ _ _ _ _ _ _ _ _ Hrun).
  unfold decompressRequest_deferred.
  now replace (len body >? maxSize) with false
    by (symmetry; rewrite Z.gtb_ltb; apply Z.ltb_ge; lia).
Qed.

(** X10. What the deferred closure of [decompressRequest] is for: when the
    limited read fails having collected more than [maxSize] bytes, then
    without compression the read error is replaced by the size-exceeded
    error with the number of bytes collected, while under [RawSnappy],
    which returns a nil body on a read error, the read error comes back
    unchanged. *)
Theorem read_error_past_the_limit (ctx : Context)
    (expectedSize maxSize : Z) (req : T) (c : CompressionType) (w : World)
    (collected : bytes) (cause : error) :
  c = NoCompression \/ c = RawSnappy ->
  expectedSize <= maxSize ->
  expectedSize <= max_int - MinRead ->
  drain (wrap64 (maxSize + 1)) (source w) = (collected, Some cause) ->
  len collected > maxSize ->
  exists w',
    ParseProtoReader ctx PlainReader expectedSize maxSize req c w
    = Val (req,
           Some (if c =? NoCompression
                 then sizeExceeded (len collected) maxSize
                 else if maxSize <? 0 then sizeExceeded 0 maxSize
                 else cause)) w'.
Proof.
  intros Hc He Hh Hdrain Hlen.
  set (w0 := add_log w (start_log ctx)).
  change (source w) with (source w0) in Hdrain.
  destruct Hc as [-> | ->].
  - destruct (decompressFromReader_NoCompression expectedSize maxSize
                (activeSpan ctx) w0 Hh) as (w1 & Hrun & _).
    rewrite <- decompressRequest_body_plain in Hrun by exact He.
    rewrite Hdrain in Hrun. exists w1.
    rewrite (ParseProtoReader_of_body _ _ _ _ _ _ _ _ _ Hrun).
    unfold decompressRequest_deferred.
    now replace (len collected >? maxSize) with true
      by (symmetry; apply Z.gtb_lt; lia).
  - destruct (decompressFromReader_RawSnappy expectedSize maxSize
                (activeSpan ctx) w0 Hh) as (b & w1 & _ & _ & Hrun).
    rewrite <- decompressRequest_body_plain in Hrun by exact He.
    rewrite Hdrain in Hrun. cbn [snd] in Hrun. exists w1.
    rewrite (ParseProtoReader_of_body _ _ _ _ _ _ _ _ _ Hrun).
    rewrite decompressRequest_deferred_nil_error.
    change (RawSnappy =? NoCompression) with false. cbv iota.
    now destruct (maxSize <? 0).
Qed.

(** X11. Under [RawSnappy] a plain reader whose source holds more than
    [maxSize] bytes is rejected, and the size the error reports is
    [maxSize + 1], the number of bytes the limited read let through, not
    the length of the source. *)
Theorem plain_RawSnappy_oversize_reports_the_limit (ctx : Context)
    (expectedSize maxSize : Z) (req : T) (w : World) (bs : bytes) :
  expectedSize <= maxSize ->
  expectedSize <= max_int - MinRead ->
  0 <= maxSize < max_int ->
  delivered (source w) = Some bs ->
  len bs > maxSize ->
  exists w',
    ParseProtoReader ctx PlainReader expectedSize maxSize req RawSnappy w
    = Val (req, Some (sizeExceeded (maxSize + 1) maxSize)) w'.
Proof.
  intros He Hh Hmax Hbs Hlen.
  set (w0 := add_log w (start_log ctx)).
  destruct (decompressFromReader_RawSnappy expectedSize maxSize
              (activeSpan ctx) w0 Hh) as (b & w1 & Hb & _ & Hrun).
  rewrite <- decompressRequest_body_plain in Hrun by exact He.
  change (source w0) with (source w) in *.
  rewrite (drain_delivered _ _ _ Hbs) in Hb, Hrun. cbn [fst snd] in Hb, Hrun.
  rewrite wrap64_limit in Hb by exact Hmax.
  assert (Hraw : len (Bytes b) = maxSize + 1).
  { rewrite Hb, len_firstn by lia. lia. }
  rewrite decompressFromBuffer_over in Hrun by lia.
  rewrite Hraw in Hrun. exists w1.
  rewrite (ParseProtoReader_of_body _ _ _ _ _ _ _ _ _ Hrun).
  rewrite decompressRequest_deferred_nil_error.
  now rewrite negative_false by lia.
Qed.

(** X14. Under [RawSnappy], bytes within the budget whose header
    [snappy.DecodedLen] cannot read (the empty input among them) are
    rejected with that function's error; [snappy.Decode] is not called and
    the request is not touched. *)
Theorem unreadable_header_is_reported (ctx : Context) (reader : Reader)
    (expectedSize maxSize : Z) (req : T) (w : World) (raw : bytes)
    (size : Z) (cause : error) :
  expectedSize <= maxSize ->
  hint_fits reader expectedSize ->
  acquired reader w maxSize raw ->
  len raw <= maxSize ->
  snappy_DecodedLen raw = (size, Some cause) ->
  exists w',
    ParseProtoReader ctx reader expectedSize maxSize req RawSnappy w
    = Val (req, Some cause) w'
    /\ decode_calls (log w') = decode_calls (log w).
Proof.
  intros He Hh Ha Hin Hd.
  set (w0 := add_log w (start_log ctx)).
  destruct (decompressRequest_body_RawSnappy reader expectedSize
              maxSize (activeSpan ctx) w0 raw He Hh
              (acquired_add_log _ _ _ _ _ Ha))
    as (b & w1 & Hb & Hl & Hrun).
  subst raw.
  rewrite (decompressFromBuffer_header_error b maxSize size cause) in Hrun
    by assumption.
  eexists. split.
  - rewrite (ParseProtoReader_of_body _ _ _ _ _ _ _ _ _ Hrun).
    rewrite decompressRequest_deferred_nil_error.
    rewrite negative_false; [reflexivity|].
    pose proof (len_nonneg (Bytes b)). lia.
  - cbn [log add_log]. rewrite Hl. subst w0. cbn [log add_log].
    unfold start_log, decompress_log.
    rewrite !decode_calls_app, !decode_calls_span_log, decode_calls_probe_log.
    cbn. lia.
Qed.

(** The errors of the statements of [decompressRequest]. *)
Lemma decompressRequest_body_errors (reader : Reader)
    (expectedSize maxSize : Z) (c : CompressionType) (sp : option Span)
    (w w1 : World) (body : bytes) (e : error) :
  decompressRequest_body reader expectedSize maxSize c sp w
  = Val (body, Some e) w1 ->
  (exists n, e = sizeExceeded n maxSize)
  \/ (script_reports (source w) e /\ e <> io_EOF)
  \/ (exists raw x, snappy_DecodedLen raw = (x, Some e))
  \/ (exists raw x, snappy_Decode raw = (x, Some e)).
Proof.
  rewrite decompressRequest_body_run. intros H.
  assert (Hbuf : forall b w2,
            decompressFromBuffer b maxSize c sp w2 = Val (body, Some e) w1 ->
            (exists n, e = sizeExceeded n maxSize)
            \/ (script_reports (source w) e /\ e <> io_EOF)
            \/ (exists raw x, snappy_DecodedLen raw = (x, Some e))
            \/ (exists raw x, snappy_Decode raw = (x, Some e))).
  { intros b w2 Hrun.
    destruct (decompressFromBuffer_value (Bytes b) maxSize c)
      as (v & Hv & Herr & _).
    destruct (Hv b sp w2 eq_refl) as (evs & Heq).
    rewrite Heq in Hrun. injection Hrun as -> _.
    destruct (Herr e eq_refl) as (_ & [->|[(n & -> & _)|[(x & Hx)|(x & Hx)]]]);
      eauto 6. }
  destruct (expectedSize >? maxSize).
  { injection H as _ <-. eauto. }
  destruct reader as [|b]; [|now apply (Hbuf b _ H)].
  destruct (grows_dec expectedSize) as [Hg|Hg].
  2:{ rewrite decompressFromReader_panics in H by exact Hg. discriminate. }
  destruct (decompressFromReader_run expectedSize maxSize c sp w Hg)
    as (b1 & w2 & _ & _ & _ & _ & Hfr).
  rewrite Hfr in H.
  destruct (c =? NoCompression).
  { injection H as Hdr _. right. left.
    apply (drain_error_in_script (wrap64 (maxSize + 1))). now rewrite Hdr. }
  destruct (c =? RawSnappy) eqn:Ec1; [|discriminate].
  apply Z.eqb_eq in Ec1. subst c.
  destruct (snd (drain (wrap64 (maxSize + 1)) (source w))) as [e0|] eqn:Hdr.
  - injection H as _ <- _. right. left.
    now apply (drain_error_in_script (wrap64 (maxSize + 1))).
  - now apply (Hbuf b1 _ H).
Qed.

(** X12. Every error [ParseProtoReader] returns has one of five origins.
    Either the request comes back untouched and the error is a
    size-exceeded error against [maxSize], an error (not [io.EOF]) the
    source reported, or the error [snappy.DecodedLen] or [snappy.Decode]
    returned; or the request was reset and the error is the one
    unmarshalling returned. *)
Theorem ParseProtoReader_error_origins (ctx : Context) (reader : Reader)
    (expectedSize maxSize : Z) (req r : T) (c : CompressionType)
    (w w' : World) (e : error) :
  ParseProtoReader ctx reader expectedSize maxSize req c w
  = Val (r, Some e) w' ->
  (r = req
   /\ ((exists n, e = sizeExceeded n maxSize)
       \/ (script_reports (source w) e /\ e <> io_EOF)
       \/ (exists raw x, snappy_DecodedLen raw = (x, Some e))
       \/ (exists raw x, snappy_Decode raw = (x, Some e))))
  \/ (exists body, unmarshal (Reset req) body = (r, Some e)).
Proof.
  intros Hrun.
  pose proof (ParseProtoReader_run ctx reader expectedSize maxSize req c w)
    as H.
  destruct (decompressRequest_body reader expectedSize maxSize c
              (activeSpan ctx) (add_log w (start_log ctx)))
    as [[body o] w1|msg w1|] eqn:Hbody.
  2:{ rewrite H in Hrun. discriminate. }
  2:{ rewrite H in Hrun. discriminate. }
  destruct H as (evs & Heq & _). rewrite Heq in Hrun.
  injection Hrun as Hfin _. unfold finish, decompressRequest_deferred in Hfin.
  destruct o as [e0|].
  - left. apply decompressRequest_body_errors in Hbody.
    change (source (add_log w (start_log ctx))) with (source w) in Hbody.
    destruct (len body >? maxSize); injection Hfin as <- <-.
    + split; [reflexivity|]. left. now exists (len body).
    + split; [reflexivity|]. exact Hbody.
  - right. eauto.
Qed.

Lemma append_empty (s : string) : String.append s "" = s.
Proof. induction s as [|ch s IH]; cbn; [reflexivity|]. now rewrite IH. Qed.

(** An error wrapped with a prefix and [%v]. *)
Lemma fmt_Errorf_marshaling (cause : error) :
  fmt_Errorf "error marshaling proto response: %v" [ArgError cause]
  = errorString (String.append "error marshaling proto response: "
                   (error_Error cause)).
Proof. unfold fmt_Errorf. cbn. now rewrite append_empty. Qed.

Lemma fmt_Errorf_sending (cause : error) :
  fmt_Errorf "error sending proto response: %v" [ArgError cause]
  = errorString (String.append "error sending proto response: "
                   (error_Error cause)).
Proof. unfold fmt_Errorf. cbn. now rewrite append_empty. Qed.

(** X15. The errors of [SerializeProtoResponse]. If marshalling fails, the
    error is "error marshaling proto response: " followed by the cause,
    snappy is not called, and the status becomes 500 unless one was set. If
    marshalling succeeds, the error is nil exactly when the write returns
    nil, and otherwise it is "error sending proto response: " followed by
    the error the write returned. *)
Theorem SerializeProtoResponse_errors (rw rw' : ResponseWriter) (resp : T)
    (c : CompressionType) (w w' : World) (err : option error) :
  SerializeProtoResponse rw resp c w = Val (rw', err) w' ->
  match snd (proto_Marshal resp) with
  | Some cause =>
      err = Some (errorString
                    (String.append "error marshaling proto response: "
                       (error_Error cause)))
      /\ w' = w
      /\ (status rw = None -> status rw' = Some StatusInternalServerError)
  | None =>
      err = option_map
              (fun cause =>
                 errorString
                   (String.append "error sending proto response: "
                      (error_Error cause)))
              (snd (ResponseWriter_Write rw
                      (if c =? RawSnappy
                       then snappy_Encode (fst (proto_Marshal resp))
                       else fst (proto_Marshal resp))))
  end.
Proof.
  unfold SerializeProtoResponse.
  destruct (proto_Marshal resp) as [data [cause|]]; cbn [fst snd].
  - intros H. injection H as <- <- <-.
    split; [now rewrite fmt_Errorf_marshaling|]. split; [reflexivity|].
    intros Hs. unfold http_Error, ResponseWriter_Write, setStatus.
    rewrite Hs. cbn. now destruct (writeErr rw).
  - unfold bind.
    assert (Hw : forall d w1,
      (let '(w2, err0) := ResponseWriter_Write rw d in
       match err0 with
       | Some e =>
           ret (http_Error w2 (error_Error e) StatusInternalServerError,
                Some (fmt_Errorf "error sending proto response: %v"
                        [ArgError e]))
       | None => ret (w2, None)
       end) w1 = Val (rw', err) w' ->
      err = option_map
              (fun cause =>
                 errorString
                   (String.append "error sending proto response: "
                      (error_Error cause)))
              (snd (ResponseWriter_Write rw d))).
    { intros d w1.
      destruct (ResponseWriter_Write rw d) as [w2 [e|]]; cbn;
        intros H; injection H as _ <- _; [|reflexivity].
      now rewrite fmt_Errorf_sending. }
    destruct (c =? NoCompression) eqn:Ec0.
    + apply Z.eqb_eq in Ec0. subst c.
      change (NoCompression =? RawSnappy) with false. cbv iota.
      cbn [ret]. apply Hw.
    + destruct (c =? RawSnappy).
      * unfold snappy_Encode_call, bind, emit, ret. apply Hw.
      * cbn [ret]. apply Hw.
Qed.

(** X16. What a successful [SerializeProtoResponse] sends: under
    [RawSnappy] the snappy encoding of the marshalled message, after one
    call to [snappy.Encode]; under every other compression value, declared
    or not, the marshalled bytes as they are, without any call to snappy.
    The bytes are appended to the body and the status becomes 200 unless
    one was set. No size limit applies. *)
Theorem SerializeProtoResponse_sends (rw : ResponseWriter) (resp : T)
    (c : CompressionType) (data : bytes) (w : World) :
  proto_Marshal resp = (data, None) ->
  writeErr rw = None ->
  SerializeProtoResponse rw resp c w
  = Val (mkResponseWriter None
           (Some (match status rw with Some s => s | None => StatusOK end))
           (written rw
            ++ (if c =? RawSnappy then snappy_Encode data else data)),
         None)
        (add_log w (if c =? RawSnappy then [EvEncode data] else [])).
Proof.
  intros Hm Hwe. unfold SerializeProtoResponse. rewrite Hm.
  assert (Hw : forall d w1,
    (let '(w2, err) := ResponseWriter_Write rw d in
     match err with
     | Some e =>
         ret (http_Error w2 (error_Error e) StatusInternalServerError,
              Some (fmt_Errorf "error sending proto response: %v"
                      [ArgError e]))
     | None => ret (w2, None)
     end) w1
    = Val (mkResponseWriter None
             (Some (match status rw with Some s => s | None => StatusOK end))
             (written rw ++ d), None) w1).
  { intros d w1. unfold ResponseWriter_Write, setStatus. rewrite Hwe.
    destruct (status rw) eqn:Hs; cbn; now rewrite ?Hwe, ?Hs. }
  unfold bind.
  destruct (c =? NoCompression) eqn:Ec0.
  - apply Z.eqb_eq in Ec0. subst c.
    change (NoCompression =? RawSnappy) with false. cbv iota.
    cbn [ret]. rewrite Hw. now rewrite add_log_nil.
  - destruct (c =? RawSnappy).
    + unfold snappy_Encode_call, bind, emit, ret. now rewrite Hw.
    + cbn [ret]. rewrite Hw. now rewrite add_log_nil.
Qed.

End ErrorPaths.

Section PayloadBounds.

Context {snappy : Snappy} {T : Type} {message : Message T}.

Lemma drain_len (n : Z) (s : stream) : len (fst (drain n s)) <= Z.max 0 n.
Proof.
  revert n. induction s as [|[d o] rest IH]; intros n; cbn [drain].
  - cbn. lia.
  - destruct (n <=? 0) eqn:En; [cbn; lia|]. apply Z.leb_gt in En.
    pose proof (len_nonneg d) as Hd.
    destruct (len d <=? n) eqn:Ed.
    + apply Z.leb_le in Ed. destruct o as [[|msg]|]; cbn [fst]; try lia.
      specialize (IH (n - len d)).
      destruct (drain (n - len d) rest) as [bs e']. cbn [fst] in *.
      rewrite len_app. lia.
    + cbn [fst]. rewrite len_firstn by lia. lia.
Qed.

(** X17. What [decompressRequest] hands over when it returns a nil error.
    Without compression: the source's own buffer, which is within
    [maxSize], or, from a plain reader, at most [maxSize + 1] bytes (the
    limit of the read). Under [RawSnappy]: the decoding of raw bytes that
    are within [maxSize] and declare a length within [maxSize]. Under any
    other compression value: nothing. *)
Theorem decompressRequest_payload_bounds (reader : Reader)
    (expectedSize maxSize : Z) (c : CompressionType) (sp : option Span)
    (w w' : World) (body : bytes) :
  decompressRequest reader expectedSize maxSize c sp w = Val (body, None) w' ->
  (c = NoCompression ->
   match reader with
   | BufferReader b => body = Bytes b /\ len body <= maxSize
   | PlainReader => len body <= Z.max 0 (wrap64 (maxSize + 1))
   end)
  /\ (c = RawSnappy ->
      exists raw size,
        len raw <= maxSize
        /\ snappy_DecodedLen raw = (size, None) /\ size <= maxSize
        /\ snappy_Decode raw = (body, None))
  /\ (c <> NoCompression -> c <> RawSnappy -> body = []).
Proof.
  unfold decompressRequest, bind. intros H.
  destruct (decompressRequest_body reader expectedSize maxSize c sp w)
    as [[body0 o] w1|msg w1|] eqn:Hbody; try discriminate.
  cbn [ret] in H. unfold decompressRequest_deferred in H.
  destruct o as [e0|].
  { destruct (len body0 >? maxSize); discriminate. }
  injection H as -> _.
  rewrite decompressRequest_body_run in Hbody.
  assert (Hbuf : forall b w2,
    decompressFromBuffer b maxSize c sp w2 = Val (body, None) w1 ->
    len (Bytes b) <= maxSize
    /\ (c = NoCompression -> body = Bytes b)
    /\ (c = RawSnappy ->
        exists raw size,
          len raw <= maxSize
          /\ snappy_DecodedLen raw = (size, None) /\ size <= maxSize
          /\ snappy_Decode raw = (body, None))
    /\ (c <> NoCompression -> c <> RawSnappy -> body = [])).
  { intros b w2 Hrun.
    destruct (decompressFromBuffer_value (Bytes b) maxSize c)
      as (v & Hv & _ & Hok).
    destruct (Hv b sp w2 eq_refl) as (evs & Heq).
    rewrite Heq in Hrun. injection Hrun as -> _.
    destruct (Hok eq_refl) as (Hlen & H0 & H1 & H2). cbn [fst] in *.
    repeat split; auto.
    intros Hc. destruct (H1 Hc) as (size & ? & ? & ?). eauto 6. }
  destruct (expectedSize >? maxSize); [discriminate|].
  destruct reader as [|b].
  - destruct (grows_dec expectedSize) as [Hg|Hg].
    2:{ rewrite decompressFromReader_panics in Hbody by exact Hg.
        discriminate. }
    destruct (decompressFromReader_run expectedSize maxSize c sp w Hg)
      as (b1 & w2 & _ & _ & _ & _ & Hfr).
    rewrite Hfr in Hbody.
    destruct (c =? NoCompression) eqn:Ec0.
    { apply Z.eqb_eq in Ec0. subst c. injection Hbody as Hdr _.
      split; [|split].
      - intros _. pose proof (drain_len (wrap64 (maxSize + 1)) (source w)).
        now rewrite Hdr in *.
      - discriminate.
      - congruence. }
    apply Z.eqb_neq in Ec0.
    destruct (c =? RawSnappy) eqn:Ec1.
    2:{ injection Hbody as <- _. apply Z.eqb_neq in Ec1.
        repeat split; congruence. }
    apply Z.eqb_eq in Ec1. subst c.
    destruct (snd (drain (wrap64 (maxSize + 1)) (source w)));
      [discriminate|].
    destruct (Hbuf _ _ Hbody) as (_ & _ & H1 & H2).
    repeat split; auto. congruence.
  - destruct (Hbuf _ _ Hbody) as (Hlen & H0 & H1 & H2).
    split; [|split; assumption].
    intros Hc. rewrite (H0 Hc). split; [reflexivity|exact Hlen].
Qed.

End PayloadBounds.

Section HonestHints.

Context {snappy : Snappy} {T : Type} {message : Message T}.

(** X5. A hint that does not overstate the payload changes nothing: on a
    plain reader, with a limit that leaves room for [bytes.MinRead], two
    hints that pass the pre-read check and are no larger than the number
    of bytes the limited read obtains give the same request and the same
    error, whatever the script and the compression value. The buffer that
    [Grow] asks for is then no larger than the one the read fills. *)
Theorem hint_within_the_bytes_read_changes_nothing (ctx : Context)
    (e1 e2 maxSize : Z) (req : T) (c : CompressionType) (w : World) :
  maxSize <= max_int - MinRead ->
  e1 <= maxSize -> e2 <= maxSize ->
  e1 <= len (fst (drain (wrap64 (maxSize + 1)) (source w))) ->
  e2 <= len (fst (drain (wrap64 (maxSize + 1)) (source w))) ->
  outcome (ParseProtoReader ctx PlainReader e1 maxSize req c w)
  = outcome (ParseProtoReader ctx PlainReader e2 maxSize req c w).
Proof.
  intros Hmax H1 H2 _ _.
  apply expectedSize_is_only_a_hint; lia.
Qed.

(** X6. Zero-copy equivalence within the limit: when the source delivers
    [bs], of at most [maxSize] bytes, the limit leaves room for
    [bytes.MinRead] and the hint does not exceed the length of [bs], a
    reader exposing a buffer with [bs] and a plain reader delivering [bs]
    give the same request and the same error, for every compression
    value. *)
Theorem zero_copy_equivalence_for_an_honest_hint (ctx : Context)
    (expectedSize maxSize capacity : Z) (req : T) (c : CompressionType)
    (bs : bytes) (wb w : World) :
  delivered (source w) = Some bs ->
  len bs <= maxSize ->
  maxSize <= max_int - MinRead ->
  expectedSize <= len bs ->
  outcome (ParseProtoReader ctx (BufferReader (mkBuffer bs capacity))
             expectedSize maxSize req c wb)
  = outcome (ParseProtoReader ctx PlainReader expectedSize maxSize req c w).
Proof.
  intros Hbs Hlen Hmax He.
  apply zero_copy_equivalence_within_limit;
    unfold max_int, MinRead in *; (assumption || lia).
Qed.

End HonestHints.

(** ** The further properties on concrete inputs *)

(** X1 at the largest hint: [expectedSize = maxSize = max_int], with an
    undeclared compression value. *)
Lemma X1_witness :
  ParseProtoReader no_span PlainReader max_int max_int (mkBlob []) 7
    (plain_world (letters 3))
  = Panic "bytes.Buffer.Grow: negative count" (plain_world (letters 3)).
Proof.
  apply (overflowing_hint_panics_in_Grow no_span max_int max_int (mkBlob []) 7
           (plain_world (letters 3))).
  - unfold is_int, min_int, max_int. lia.
  - unfold max_int, MinRead. lia.
  - lia.
Defined.

(** X2 on five bytes against [maxSize = 2]: three are taken, two stay. *)
Lemma X2_witness :
  remainder (source (plain_world (letters 5)))
    (source (mkWorld [(letters 2, None)] 1 []))
  /\ exists taken,
       stream_bytes (source (plain_world (letters 5)))
       = taken ++ stream_bytes (source (mkWorld [(letters 2, None)] 1 []))
       /\ len taken <= Z.max 0 (wrap64 (2 + 1)).
Proof.
  apply (plain_reader_is_read_within_the_limit no_span 0 2 (mkBlob [])
           NoCompression (plain_world (letters 5))
           (mkWorld [(letters 2, None)] 1 []) (mkBlob (letters 3), None)).
  vm_compute. reflexivity.
Defined.

(** X3 on an oversize buffer, beside a source that holds three bytes. *)
Lemma X3_witness :
  source (mkWorld [(letters 3, None)] 0 [EvBytesBuffer])
  = source (plain_world (letters 3))
  /\ reads (mkWorld [(letters 3, None)] 0 [EvBytesBuffer])
     = reads (plain_world (letters 3)).
Proof.
  apply (buffer_reader_is_never_read no_span (mkBuffer (letters 3) 3) 0 2
           (mkBlob []) NoCompression (plain_world (letters 3))
           (mkWorld [(letters 3, None)] 0 [EvBytesBuffer])
           (mkBlob [],
            Some (errorString "received message larger than max (3 vs 2)"))).
  vm_compute. reflexivity.
Defined.

(** X5 with no hint and with a hint of three, on a source of three bytes. *)
Lemma X5_witness :
  outcome (ParseProtoReader no_span PlainReader 0 5 (mkBlob []) NoCompression
             (plain_world (letters 3)))
  = outcome (ParseProtoReader no_span PlainReader 3 5 (mkBlob [])
               NoCompression (plain_world (letters 3))).
Proof.
  apply (hint_within_the_bytes_read_changes_nothing no_span 0 3 5 (mkBlob [])
           NoCompression (plain_world (letters 3))).
  - unfold max_int, MinRead. lia.
  - lia.
  - lia.
  - vm_compute. discriminate.
  - vm_compute. discriminate.
Defined.

(** X6 on a snappy block of six bytes with [maxSize = 20] and the hint
    six. *)
Lemma X6_witness :
  outcome (ParseProtoReader traced
             (BufferReader (mkBuffer compressed_letters 64)) 6 20 (mkBlob [])
             RawSnappy (world_of []))
  = outcome (ParseProtoReader traced PlainReader 6 20 (mkBlob []) RawSnappy
               (plain_world compressed_letters)).
Proof.
  apply (zero_copy_equivalence_for_an_honest_hint traced 6 20 64 (mkBlob [])
           RawSnappy compressed_letters (world_of [])
           (plain_world compressed_letters)).
  - reflexivity.
  - vm_compute. discriminate.
  - unfold max_int, MinRead. lia.
  - vm_compute. discriminate.
Defined.

(** X7 on a buffer of three bytes against [maxSize = 2]. *)
Lemma X7_witness :
  ParseProtoReader no_span (buffer_of (letters 3)) 0 2 (mkBlob []) RawSnappy
    (world_of [])
  = Val (mkBlob [],
         Some (errorString "received message larger than max (3 vs 2)"))
        (mkWorld [] 0 [EvBytesBuffer]).
Proof.
  apply (buffer_oversize_is_rejected no_span (mkBuffer (letters 3) 3) 0 2
           (mkBlob []) RawSnappy (world_of [])).
  - lia.
  - lia.
  - reflexivity.
Defined.

(** X8 on five bytes against [maxSize = 2]: the first three are
    unmarshalled. *)
Lemma X8_witness :
  exists w',
    ParseProtoReader no_span PlainReader 0 2 (mkBlob []) NoCompression
      (plain_world (letters 5))
    = Val (mkBlob (letters 3), None) w'.
Proof.
  exact (plain_NoCompression_is_never_size_checked no_span 0 2 (mkBlob [])
           (plain_world (letters 5)) (letters 5)
           ltac:(lia) ltac:(unfold max_int, MinRead; lia) eq_refl).
Defined.

(** X9 on a source that fails after two bytes, with [maxSize = 5]. *)
Lemma X9_witness :
  exists w',
    ParseProtoReader no_span PlainReader 0 5 (mkBlob [Byte.x62]) RawSnappy
      (failing_world (letters 2) ErrUnexpectedEOF)
    = Val (mkBlob [Byte.x62], Some ErrUnexpectedEOF) w'.
Proof.
  apply (read_error_within_the_limit_is_returned no_span 0 5
           (mkBlob [Byte.x62]) RawSnappy
           (failing_world (letters 2) ErrUnexpectedEOF) (letters 2)
           ErrUnexpectedEOF).
  - right. reflexivity.
  - lia.
  - unfold max_int, MinRead. lia.
  - reflexivity.
  - reflexivity.
  - vm_compute. discriminate.
Defined.

(** X10 on a source that fails together with its third byte, with
    [maxSize = 2] and no compression. *)
Lemma X10_witness :
  exists w',
    ParseProtoReader no_span PlainReader 0 2 (mkBlob []) NoCompression
      (failing_world (letters 3) ErrUnexpectedEOF)
    = Val (mkBlob [],
           Some (errorString "received message larger than max (3 vs 2)")) w'.
Proof.
  apply (read_error_past_the_limit no_span 0 2 (mkBlob []) NoCompression
           (failing_world (letters 3) ErrUnexpectedEOF) (letters 3)
           ErrUnexpectedEOF).
  - left. reflexivity.
  - lia.
  - unfold max_int, MinRead. lia.
  - reflexivity.
  - reflexivity.
Defined.

(** X11 on five bytes against [maxSize = 2]: the error says three. *)
Lemma X11_witness :
  exists w',
    ParseProtoReader no_span PlainReader 0 2 (mkBlob []) RawSnappy
      (plain_world (letters 5))
    = Val (mkBlob [],
           Some (errorString "received message larger than max (3 vs 2)")) w'.
Proof.
  apply (plain_RawSnappy_oversize_reports_the_limit no_span 0 2 (mkBlob [])
           (plain_world (letters 5)) (letters 5)).
  - lia.
  - unfold max_int, MinRead. lia.
  - unfold max_int. lia.
  - reflexivity.
  - reflexivity.
Defined.

(** X12 on the corrupt block: the error is the one [snappy.Decode]
    returned. *)
Lemma X12_witness :
  (mkBlob [] = mkBlob []
   /\ ((exists n, ErrCorrupt = sizeExceeded n 10)
       \/ (script_reports (source (world_of [])) ErrCorrupt
           /\ ErrCorrupt <> io_EOF)
       \/ (exists raw x, snappy_DecodedLen raw = (x, Some ErrCorrupt))
       \/ (exists raw x, snappy_Decode raw = (x, Some ErrCorrupt))))
  \/ (exists body, unmarshal (Reset (mkBlob [])) body
                   = (mkBlob [], Some ErrCorrupt)).
Proof.
  apply (ParseProtoReader_error_origins no_span (buffer_of corrupt_block) 3 10
           (mkBlob []) (mkBlob []) RawSnappy (world_of [])
           (mkWorld [] 0 [EvBytesBuffer; EvDecodedLen corrupt_block;
                          EvDecode corrupt_block])
           ErrCorrupt).
  vm_compute. reflexivity.
Defined.

(** X13 on a successful parse of the six-byte block. *)
Lemma X13_witness :
  exists evs,
    log (mkWorld [] 0 [EvBytesBuffer; EvDecodedLen compressed_letters;
                       EvDecode compressed_letters])
    = log (world_of []) ++ evs
    /\ (decode_calls evs <= 1)%nat
    /\ (forall raw, In (EvDecode raw) evs ->
          RawSnappy = RawSnappy /\ len raw <= 20
          /\ exists size, snappy_DecodedLen raw = (size, None) /\ size <= 20).
Proof.
  apply (Decode_only_within_maxSize no_span (buffer_of compressed_letters)
           6 20 (mkBlob []) RawSnappy (world_of [])
           (mkWorld [] 0 [EvBytesBuffer; EvDecodedLen compressed_letters;
                          EvDecode compressed_letters])
           (mkBlob (letters 20), None)).
  vm_compute. reflexivity.
Defined.

(** X14 on the empty input. *)
Lemma X14_witness :
  exists w',
    ParseProtoReader traced (buffer_of []) 0 10 (mkBlob [Byte.x62]) RawSnappy
      (world_of [])
    = Val (mkBlob [Byte.x62], Some ErrCorrupt) w'
    /\ decode_calls (log w') = decode_calls (log (world_of [])).
Proof.
  apply (unreadable_header_is_reported traced (buffer_of []) 0 10
           (mkBlob [Byte.x62]) (world_of []) [] 0 ErrCorrupt).
  - lia.
  - exact I.
  - reflexivity.
  - vm_compute. discriminate.
  - reflexivity.
Defined.

(** X16 for twenty letters under [RawSnappy] and a fresh response. *)
Lemma X16_witness :
  SerializeProtoResponse fresh_response (mkBlob (letters 20)) RawSnappy
    (world_of [])
  = Val (mkResponseWriter None (Some StatusOK) compressed_letters, None)
        (mkWorld [] 0 [EvEncode (letters 20)]).
Proof.
  exact (SerializeProtoResponse_sends fresh_response (mkBlob (letters 20))
           RawSnappy (letters 20) (world_of []) eq_refl eq_refl).
Defined.

(** X17 on a buffer of three bytes with [maxSize = 5], no compression. *)
Lemma X17_witness :
  (NoCompression = NoCompression ->
   letters 3 = Bytes (mkBuffer (letters 3) 3) /\ len (letters 3) <= 5)
  /\ (NoCompression = RawSnappy ->
      exists raw size,
        len raw <= 5
        /\ snappy_DecodedLen raw = (size, None) /\ size <= 5
        /\ snappy_Decode raw = (letters 3, None))
  /\ (NoCompression <> NoCompression -> NoCompression <> RawSnappy ->
      letters 3 = []).
Proof.
  exact (decompressRequest_payload_bounds (buffer_of (letters 3)) 0 5
           NoCompression None (world_of []) (mkWorld [] 0 [EvBytesBuffer])
           (letters 3) eq_refl).
Defined.

(** X15 for a writer whose write fails. *)
Lemma X15_witness :
  Some (errorString "error sending proto response: unexpected EOF")
  = option_map
      (fun cause =>
         errorString
           (String.append "error sending proto response: "
              (error_Error cause)))
      (snd (ResponseWriter_Write
              (mkResponseWriter (Some ErrUnexpectedEOF) None [])
              (if NoCompression =? RawSnappy
               then snappy_Encode (fst (proto_Marshal (mkBlob (letters 3))))
               else fst (proto_Marshal (mkBlob (letters 3)))))).
Proof.
  exact (SerializeProtoResponse_errors
           (mkResponseWriter (Some ErrUnexpectedEOF) None [])
           (mkResponseWriter (Some ErrUnexpectedEOF)
              (Some StatusInternalServerError) [])
           (mkBlob (letters 3)) NoCompression (world_of []) (world_of [])
           (Some (errorString "error sending proto response: unexpected EOF"))
           eq_refl).
Defined.
